(** * FGRM front end: carousel controller and authentication form

    A shallow embedding of the two stateful React components of the
    portal, [CreativeSlides] (src/components/Slides.tsx) and the two
    variants of [AuthCard], together with the fragments of the JavaScript
    run time, of zod and of react-hook-form that decide their behaviour.

    JavaScript objects used as dictionaries are finite maps from property
    names to values; the state a component keeps between renders is a
    record; a callback scheduled with [setTimeout] is an entry of a timer
    queue that a logical clock drains. *)

From Stdlib Require Import ZArith Lia Ascii String List.
From stdpp Require Import base option list gmap strings.

Set Default Proof Using "Type".

(** ** JavaScript fragments *)

Module Js.

(** Numbers. The components only ever hold slide counts and slide
    indices, which are integers far inside the range a double holds
    exactly, plus the [NaN] that [%] yields for a zero divisor. *)
Inductive number : Type :=
| Int (z : Z)
| NaN.

Definition add (a b : number) : number :=
  match a, b with
  | Int x, Int y => Int (x + y)
  | _, _ => NaN
  end.

Definition sub (a b : number) : number :=
  match a, b with
  | Int x, Int y => Int (x - y)
  | _, _ => NaN
  end.

(** [a % b]: the sign follows the dividend, and a zero divisor gives
    [NaN] instead of raising. *)
Definition rem (a b : number) : number :=
  match a, b with
  | Int x, Int y => if (y =? 0)%Z then NaN else Int (Z.rem x y)
  | _, _ => NaN
  end.

(** Exceptions and the completion of an evaluation. *)
Inductive error : Type :=
| TypeError (message : string).

Inductive completion (A : Type) : Type :=
| Normal (a : A)
| Throw (e : error).
Arguments Normal {A} a.
Arguments Throw {A} e.

(** [arr[i]]: [undefined] (here [None]) outside the array, also for a
    negative index and for [NaN]. *)
Definition at_index {A : Type} (arr : list A) (i : number) : option A :=
  match i with
  | Int z => if (z <? 0)%Z then None else nth_error arr (Z.to_nat z)
  | NaN => None
  end.

(** [s.split(sep)] for a one-character separator. *)
Fixpoint split_on (sep : ascii) (s : string) : list string :=
  match s with
  | EmptyString => [EmptyString]
  | String c rest =>
      if Ascii.eqb c sep then EmptyString :: split_on sep rest
      else match split_on sep rest with
           | [] => [String c EmptyString]
           | w :: ws => String c w :: ws
           end
  end.

End Js.

(** ** The hero carousel, src/components/Slides.tsx *)

Module Slides.
Import Js.

Record Slide : Type := {
  image : string;
  title : string;
  subtitle : string;
  description : string;
  align : string;
  accent : string
}.

Definition SLIDE_DURATION : Z := 6500.

Definition slides : list Slide := [
  {| image := "public/images/cocoa/newcocoa.jpg";
     title := "Your Voice Matters in Cocoa Farming";
     subtitle := "Feedback & Grievance Redress Mechanism";
     description := "Submit your feedback and report issues to promote sustainability and fairness in the industry.";
     align := "center";
     accent := "text-amber-400" |};
  {| image := "/images/cocoa/new cocoa2.jpg";
     title := "Tracking Progress, Ensuring Transparency";
     subtitle := "From Report to Resolution";
     description := "Easily track the status of your submitted cases with real-time updates and secure access.";
     align := "left";
     accent := "text-sky-400" |};
  {| image := "/images/cocoa/hand pollution.jpg";
     title := "Boosting Yields Through Hand Pollination";
     subtitle := "A Key Initiative";
     description := "Learn how modern techniques and supportive programs are driving higher cocoa productivity.";
     align := "right";
     accent := "text-emerald-400" |};
  {| image := "/images/cocoa/fetilizer distribution.jpg";
     title := "Accountability in Fertilizer Distribution";
     subtitle := "Fair Access for All";
     description := "Report issues related to resource quality and distribution for immediate action.";
     align := "left";
     accent := "text-rose-400" |}
].

(** The two state updaters, closed over [totalSlides] as in the
    component body. *)
Definition nextSlide (totalSlides : number) (prev : number) : number :=
  rem (add prev (Int 1)) totalSlides.

Definition prevSlide (totalSlides : number) (prev : number) : number :=
  rem (add (sub prev (Int 1)) totalSlides) totalSlides.

(** What one render pass computes before it builds the markup. *)
Record View : Type := {
  currentSlideData : Slide;
  titleWords : list string
}.

(** A mounted instance: the [useState] cell and the period of the
    interval its effect has armed. *)
Record Instance : Type := {
  currentSlide : number;
  interval : Z
}.

Inductive Event : Type :=
| Tick          (* the interval fires *)
| ClickNext     (* right-hand control *)
| ClickPrev.    (* left-hand control *)

(** The index invariant of a carousel of a given length. *)
Definition in_range (total : Z) (index : number) : Prop :=
  match index with
  | Int i => (0 <= i < total)%Z
  | NaN => False
  end.

Section CreativeSlides.

(** The slide list the module closes over; [slides] in the shipped
    bundle. *)
Variable deck : list Slide.

Definition totalSlides : number := Int (Z.of_nat (length deck)).

(** The render pass: [slides[currentSlide]] and then [.title] of
    it, which throws when the element is [undefined]. *)
Definition render (current : number) : completion View :=
  match at_index deck current with
  | None =>
      Throw (TypeError "Cannot read properties of undefined (reading 'title')")
  | Some data =>
      Normal {| currentSlideData := data;
                titleWords := split_on " " (title data) |}
  end.

(** Construction: the first render with the initial state [0]; the
    effect that arms the interval runs only once that render has
    committed. *)
Definition mount : completion Instance :=
  match render (Int 0) with
  | Throw e => Throw e
  | Normal _ =>
      Normal {| currentSlide := Int 0; interval := SLIDE_DURATION |}
  end.

(** The updater an event triggers. *)
Definition updater (ev : Event) : number -> number :=
  match ev with
  | Tick | ClickNext => nextSlide totalSlides
  | ClickPrev => prevSlide totalSlides
  end.

(** The operands of the [%] that updater evaluates. *)
Definition operands (ev : Event) (prev : number) : number * number :=
  match ev with
  | Tick | ClickNext => (add prev (Int 1), totalSlides)
  | ClickPrev => (add (sub prev (Int 1)) totalSlides, totalSlides)
  end.

(** One event on a mounted instance: the updater runs, then the
    component renders again with the new state. *)
Definition handle (ev : Event) (c : Instance) : completion Instance :=
  let next := updater ev (currentSlide c) in
  match render next with
  | Throw e => Throw e
  | Normal _ => Normal {| currentSlide := next; interval := interval c |}
  end.

(** A run of the component, with the operands of every [%] it
    evaluates (most recent first). A component whose render threw
    is gone: it has neither timer nor controls, so later events
    reach no handler. *)
Fixpoint run_from (c : completion Instance) (evaluated : list (number * number))
    (evs : list Event) : completion Instance * list (number * number) :=
  match evs with
  | [] => (c, evaluated)
  | ev :: rest =>
      match c with
      | Throw e => (Throw e, evaluated)
      | Normal i =>
          run_from (handle ev i) (operands ev (currentSlide i) :: evaluated) rest
      end
  end.

Definition run (evs : list Event) : completion Instance * list (number * number) :=
  run_from mount [] evs.

End CreativeSlides.

Definition CreativeSlides : list Event -> completion Instance * list (number * number) :=
  run slides.

End Slides.

(** ** zod: the schema fragment the forms use

    The validation library is a dependency, not part of the repository's
    sources. What follows is the documented behaviour of the combinators
    the three schemas are built from: [z.string()], [.min], [.email],
    [.optional()], [z.object] and [.refine] with a [path]. *)

Module Zod.

(** The values a form object holds: a string, or nothing. *)
Inductive value : Type :=
| Undefined
| Str (s : string).

Global Instance value_eq_dec : EqDecision value.
Proof. solve_decision. Defined.

(** Property access: a missing key reads as [undefined]. *)
Definition prop (data : gmap string value) (key : string) : value :=
  default Undefined (data !! key).

(** [!v] *)
Definition falsy (v : value) : bool :=
  match v with
  | Undefined => true
  | Str EmptyString => true
  | Str (String _ _) => false
  end.

(** [a === b] *)
Definition strict_eq (a b : value) : bool := bool_decide (a = b).

(** *** The e-mail pattern

    zod's [.email()] tests the string against a case-insensitive
    pattern anchored at both ends:
    - the string starts with no dot and holds no two dots in a row;
    - before the [@]: any number of characters out of letters,
      digits and [_ ' + - .], then one out of letters, digits and
      [_ + -];
    - after the [@]: one or more labels, each a letter or digit, then
      letters, digits and hyphens, then a dot; and at last two or
      more letters.
    No character class holds [@], so a match has exactly one [@]; no
    label holds a dot, so the domain splits at its dots. *)

Definition between (lo hi c : ascii) : bool :=
  (nat_of_ascii lo <=? nat_of_ascii c)%nat && (nat_of_ascii c <=? nat_of_ascii hi)%nat.

Definition is_letter (c : ascii) : bool := between "a" "z" c || between "A" "Z" c.
Definition is_digit (c : ascii) : bool := between "0" "9" c.
Definition is_alnum (c : ascii) : bool := is_letter c || is_digit c.

Definition one_of (set : string) (c : ascii) : bool :=
  existsb (Ascii.eqb c) (list_ascii_of_string set).

(** The two character classes of the part before the [@]. *)
Definition local_char (c : ascii) : bool := is_alnum c || one_of "_'+-." c.
Definition local_last (c : ascii) : bool := is_alnum c || one_of "_+-" c.

Fixpoint all_chars (p : ascii -> bool) (s : string) : bool :=
  match s with
  | EmptyString => true
  | String c rest => p c && all_chars p rest
  end.

Fixpoint last_char (s : string) : option ascii :=
  match s with
  | EmptyString => None
  | String c EmptyString => Some c
  | String _ rest => last_char rest
  end.

Fixpoint has_double_dot (s : string) : bool :=
  match s with
  | String "." ((String "." _) as rest) => true
  | String _ rest => has_double_dot rest
  | EmptyString => false
  end.

(** The part before the [@]. *)
Definition local_part (s : string) : bool :=
  all_chars local_char s &&
  match last_char s with
  | Some c => local_last c
  | None => false
  end.

(** One label of the domain, without its dot. *)
Definition domain_label (s : string) : bool :=
  match s with
  | EmptyString => false
  | String c rest => is_alnum c && all_chars (fun d => is_alnum d || one_of "-" d) rest
  end.

(** The last label. *)
Definition top_level (s : string) : bool :=
  all_chars is_letter s && (2 <=? String.length s)%nat.

(** The domain, split at its dots. *)
Fixpoint domain_labels (labels : list string) : bool :=
  match labels with
  | [] => false
  | [_] => false
  | [l; tld] => domain_label l && top_level tld
  | l :: rest => domain_label l && domain_labels rest
  end.

Definition emailRegex (s : string) : bool :=
  match s with
  | String "." _ => false
  | _ =>
      negb (has_double_dot s) &&
      match Js.split_on "@" s with
      | [loc; dom] => local_part loc && domain_labels (Js.split_on "." dom)
      | _ => false
      end
  end.

(** *** Schemas *)

(** The checks chained on [z.string()]. *)
Inductive check : Type :=
| min (minimum : nat) (message : string)
| email (message : string).

Inductive type : Type :=
| string_ (checks : list check)        (* z.string().min(..).email(..) *)
| optional (inner : type).             (* .optional() *)

Record refinement : Type := {
  predicate : gmap string value -> bool;
  refine_message : string;
  refine_path : list string
}.

(** [z.object(shape).refine(p, {message, path})...] *)
Record schema : Type := {
  shape : list (string * type);
  refinements : list refinement
}.

Definition object (shape : list (string * type)) : schema :=
  {| shape := shape; refinements := [] |}.

Definition refine (s : schema) (p : gmap string value -> bool)
    (message : string) (path : list string) : schema :=
  {| shape := shape s;
     refinements := refinements s ++
       [{| predicate := p; refine_message := message; refine_path := path |}] |}.

Record issue : Type := {
  path : list string;
  message : string
}.

(** A parse is [aborted] when the input has the wrong type, [dirty]
    when a check failed on a value of the right type. *)
Inductive status : Type := valid | dirty | aborted.

Definition merge (a b : status) : status :=
  match a, b with
  | aborted, _ | _, aborted => aborted
  | dirty, _ | _, dirty => dirty
  | valid, valid => valid
  end.

Definition run_check (s : string) (c : check) : option string :=
  match c with
  | min minimum message =>
      if (String.length s <? minimum)%nat then Some message else None
  | email message =>
      if emailRegex s then None else Some message
  end.

(** Every check of a string runs; none stops the others. *)
Fixpoint parse_type (t : type) (input : value) : status * list string :=
  match t with
  | string_ checks =>
      match input with
      | Undefined => (aborted, ["Required"])
      | Str s =>
          let failed := omap (run_check s) checks in
          (match failed with [] => valid | _ => dirty end, failed)
      end
  | optional inner =>
      match input with
      | Undefined => (valid, [])
      | _ => parse_type inner input
      end
  end.

(** The keys of the shape are parsed in declaration order and all
    issues are kept. *)
Fixpoint parse_shape (fields : list (string * type)) (data : gmap string value)
  : status * list issue :=
  match fields with
  | [] => (valid, [])
  | (key, t) :: rest =>
      let here := parse_type t (prop data key) in
      let there := parse_shape rest data in
      (merge here.1 there.1,
       map (fun m => {| path := [key]; message := m |}) here.2 ++ there.2)
  end.

(** The parsed object: unknown keys are stripped. *)
Definition output (fields : list (string * type)) (data : gmap string value)
  : gmap string value :=
  filter (fun kv => kv.1 ∈ fields.*1) data.

Definition run_refinement (parsed : gmap string value) (r : refinement)
  : option issue :=
  if predicate r parsed then None
  else Some {| path := refine_path r; message := refine_message r |}.

(** Refinements run on the parsed object unless the object parse was
    aborted; a field that merely failed a check does not stop them. *)
Definition safeParse (s : schema) (data : gmap string value) : list issue :=
  let parsed := parse_shape (shape s) data in
  match parsed.1 with
  | aborted => parsed.2
  | _ => parsed.2 ++ omap (run_refinement (output (shape s) data)) (refinements s)
  end.

End Zod.

(** ** @hookform/resolvers/zod

    The adapter between the two libraries: it parses the form values
    with the schema and turns the issues into the map of field errors
    that the form reads. *)

Module Resolvers.

(** [path.join(".")] *)
Definition join_path (path : list string) : string :=
  String.concat "." path.

(** Whether an issue is reported under a field name. *)
Definition at_path (name : string) (i : Zod.issue) : bool :=
  String.eqb (join_path (Zod.path i)) name.

(** The issues are walked front to back and the first issue of a path
    gives that path's message. *)
Definition record (errors : gmap string string) (i : Zod.issue) : gmap string string :=
  let name := join_path (Zod.path i) in
  match errors !! name with
  | Some _ => errors
  | None => <[name := Zod.message i]> errors
  end.

Definition parseErrorSchema (issues : list Zod.issue) : gmap string string :=
  fold_left record issues ∅.

Record result : Type := {
  values : gmap string Zod.value;
  errors : gmap string string
}.

(** [{ values: parsed, errors: {} }] on success and
    [{ values: {}, errors }] otherwise. *)
Definition zodResolver (s : Zod.schema) (formValues : gmap string string) : result :=
  let data : gmap string Zod.value := Zod.Str <$> formValues in
  match Zod.safeParse s data with
  | [] => {| values := Zod.output (Zod.shape s) data; errors := ∅ |}
  | issues => {| values := ∅; errors := parseErrorSchema issues |}
  end.

End Resolvers.

(** ** react-hook-form, as [useForm] is used here

    [mode: "onChange"], a resolver, [shouldUnregister] left off: the form
    values start as a copy of [defaultValues] and keep the keys of inputs
    that are not rendered. *)

Module HookForm.

Record Form : Type := {
  values : gmap string string;         (* the current field values *)
  defaultValues : gmap string string;  (* what [reset()] goes back to *)
  errors : gmap string string          (* [formState.errors] *)
}.

Definition useForm (defaults : gmap string string) : Form :=
  {| values := defaults; defaultValues := defaults; errors := ∅ |}.

Section WithResolver.

Variable resolver : gmap string string -> Resolvers.result.

(** [formState.isValid]: the resolver finds nothing wrong with the
    current values. *)
Definition isValid (f : Form) : bool :=
  bool_decide (Resolvers.errors (resolver (values f)) = ∅).

(** A change event of the input [name]: the value is stored, the
    resolver runs on all values, and the error of this one field is
    set or removed. *)
Definition onChange (name value : string) (f : Form) : Form :=
  let updated := <[name := value]> (values f) in
  {| values := updated;
     defaultValues := defaultValues f;
     errors :=
       match Resolvers.errors (resolver updated) !! name with
       | Some message => <[name := message]> (errors f)
       | None => delete name (errors f)
       end |}.

(** [handleSubmit(onValid)]: the resolver runs, its errors replace
    the form's, and [onValid] is called with the parsed values only
    when there is none. *)
Definition handleSubmit (f : Form) : Form * option (gmap string Zod.value) :=
  let r := resolver (values f) in
  ({| values := values f;
      defaultValues := defaultValues f;
      errors := Resolvers.errors r |},
   if bool_decide (Resolvers.errors r = ∅) then Some (Resolvers.values r) else None).

End WithResolver.

(** [reset(values)] and [reset()]: given values also become the new
    defaults; the errors are dropped either way. *)
Definition reset (given : option (gmap string string)) (f : Form) : Form :=
  let updated := default (defaultValues f) given in
  {| values := updated; defaultValues := updated; errors := ∅ |}.

End HookForm.

(** ** The authentication card

    The repository holds two versions of [AuthCard]. They share the
    component body below and differ in the points gathered in
    [Variant]. *)

Module AuthCard.

(** The two callbacks handed to [setTimeout]. The first closes over
    the [data] and the [isLogin] of the render that submitted. *)
Inductive callback : Type :=
| accepted (isLogin : bool) (data : gmap string Zod.value)
| successShown.

Record State : Type := {
  isLogin : bool;
  submitting : bool;
  success : bool;
  form : HookForm.Form;
  clock : nat;
  timers : list (nat * callback);
  console : list (string * gmap string Zod.value)
}.

Record Variant : Type := {
  (** the schema handed to [zodResolver] in a render with this [isLogin] *)
  resolverSchema : bool -> Zod.schema;
  (** the object of empty strings: [defaultValues], and the argument
      of [reset] after an accepted submission *)
  blank : gmap string string;
  (** the argument of [reset] in [toggleAuthMode], if any *)
  toggleReset : option (gmap string string);
  (** the inputs rendered in a mode *)
  inputs : bool -> list string;
  (** [console.log] at the start of [onSubmit], if any *)
  logOnSubmit : option string;
  (** [console.log] in the delayed callback, if any *)
  logOnAccept : option (bool -> string)
}.

Definition setSubmitting (b : bool) (st : State) : State :=
  {| isLogin := isLogin st; submitting := b; success := success st;
     form := form st; clock := clock st; timers := timers st;
     console := console st |}.

Definition setSuccess (b : bool) (st : State) : State :=
  {| isLogin := isLogin st; submitting := submitting st; success := b;
     form := form st; clock := clock st; timers := timers st;
     console := console st |}.

Definition setIsLogin (b : bool) (st : State) : State :=
  {| isLogin := b; submitting := submitting st; success := success st;
     form := form st; clock := clock st; timers := timers st;
     console := console st |}.

Definition setForm (f : HookForm.Form) (st : State) : State :=
  {| isLogin := isLogin st; submitting := submitting st; success := success st;
     form := f; clock := clock st; timers := timers st;
     console := console st |}.

Definition setClock (now : nat) (pending : list (nat * callback)) (st : State) : State :=
  {| isLogin := isLogin st; submitting := submitting st; success := success st;
     form := form st; clock := now; timers := pending;
     console := console st |}.

(** [setTimeout(cb, delay)] *)
Definition setTimeout (cb : callback) (delay : nat) (st : State) : State :=
  setClock (clock st) (timers st ++ [(clock st + delay, cb)]) st.

Definition log (line : option string) (data : gmap string Zod.value) (st : State) : State :=
  match line with
  | None => st
  | Some text =>
      {| isLogin := isLogin st; submitting := submitting st; success := success st;
         form := form st; clock := clock st; timers := timers st;
         console := console st ++ [(text, data)] |}
  end.

(** The status the submit button shows: "Processing...", "Success!"
    or the mode's label. *)
Inductive Status : Type := Idle | Submitting | Success.

Definition status (st : State) : Status :=
  if submitting st then Submitting
  else if success st then Success
  else Idle.

Section Component.

Variable v : Variant.

Definition resolver (st : State) : gmap string string -> Resolvers.result :=
  Resolvers.zodResolver (resolverSchema v (isLogin st)).

Definition isValid (st : State) : bool :=
  HookForm.isValid (resolver st) (form st).

(** [disabled={!isValid || submitting}] *)
Definition disabled (st : State) : bool :=
  negb (isValid st) || submitting st.

Definition onSubmit (data : gmap string Zod.value) (st : State) : State :=
  let st := setSubmitting true st in
  let st := setSuccess false st in
  let st := log (logOnSubmit v) data st in
  setTimeout (accepted (isLogin st) data) 800 st.

Definition toggleAuthMode (st : State) : State :=
  let st := setIsLogin (negb (isLogin st)) st in
  setForm (HookForm.reset (toggleReset v) (form st)) st.

Definition call (cb : callback) (st : State) : State :=
  match cb with
  | accepted wasLogin data =>
      let st := setSubmitting false st in
      let st := setSuccess true st in
      let st := setForm (HookForm.reset (Some (blank v)) (form st)) st in
      let st := setTimeout successShown 2000 st in
      log (option_map (fun line => line wasLogin) (logOnAccept v)) data st
  | successShown => setSuccess false st
  end.

(** One unit of time: the clock moves, and the callbacks that are
    due run in the order they were scheduled. *)
Definition tick (st : State) : State :=
  let now := S (clock st) in
  let due := filter (fun t => t.1 <= now)%nat (timers st) in
  let pending := filter (fun t => now < t.1)%nat (timers st) in
  fold_left (fun s t => call t.2 s) due (setClock now pending st).

Definition elapse (units : nat) (st : State) : State :=
  Nat.iter units tick st.

(** What can happen to a mounted card. A disabled submit button
    submits nothing, and only rendered inputs can be typed in. *)
Inductive Event : Type :=
| Input (name value : string)
| Submit
| Toggle
| Wait.

Definition step (ev : Event) (st : State) : State :=
  match ev with
  | Input name value =>
      if bool_decide (name ∈ inputs v (isLogin st))
      then setForm (HookForm.onChange (resolver st) name value (form st)) st
      else st
  | Submit =>
      if disabled st then st
      else
        let checked := HookForm.handleSubmit (resolver st) (form st) in
        match checked.2 with
        | Some data => onSubmit data (setForm checked.1 st)
        | None => setForm checked.1 st
        end
  | Toggle => toggleAuthMode st
  | Wait => tick st
  end.

Definition mount : State :=
  {| isLogin := true; submitting := false; success := false;
     form := HookForm.useForm (blank v);
     clock := 0; timers := []; console := [] |}.

Definition run (evs : list Event) : State :=
  fold_left (fun st ev => step ev st) evs mount.

(** The states a mounted card can be in. *)
Inductive reachable : State -> Prop :=
| reachable_mount : reachable mount
| reachable_step ev st : reachable st -> reachable (step ev st).

End Component.

(** *** First version: separate sign-in and sign-up schemas *)

Definition LoginSchema : Zod.schema :=
  Zod.object [
    ("email", Zod.string_ [Zod.email "Invalid email address"]);
    ("password", Zod.string_ [Zod.min 8 "Password must be at least 8 characters"])
  ].

Definition SignupSchema : Zod.schema :=
  Zod.refine
    (Zod.object [
       ("email", Zod.string_ [Zod.email "Invalid email address"]);
       ("phoneNumber", Zod.string_ [Zod.min 10 "Phone number must be at least 10 digits"]);
       ("firstName", Zod.string_ [Zod.min 1 "First name is required"]);
       ("lastName", Zod.string_ [Zod.min 1 "Last name is required"]);
       ("password", Zod.string_ [Zod.min 8 "Password must be at least 8 characters"]);
       ("confirmPassword", Zod.string_ [])
     ])
    (fun data =>
       Zod.strict_eq (Zod.prop data "password") (Zod.prop data "confirmPassword"))
    "Passwords do not match"
    ["confirmPassword"].

Definition getSchema (isLogin : bool) : Zod.schema :=
  if isLogin then LoginSchema else SignupSchema.

Definition SplitCard : Variant :=
  {| resolverSchema := getSchema;
     blank := {[ "email" := ""; "password" := ""; "firstName" := "";
                 "lastName" := ""; "phoneNumber" := ""; "confirmPassword" := "" ]};
     toggleReset :=
       Some {[ "email" := ""; "password" := ""; "firstName" := "";
               "lastName" := ""; "phoneNumber" := ""; "confirmPassword" := "" ]};
     inputs := fun isLogin =>
       if isLogin then ["email"; "password"]
       else ["firstName"; "lastName"; "email"; "phoneNumber"; "password";
             "confirmPassword"];
     logOnSubmit := Some "Form submitted:";
     logOnAccept := None |}.

(** *** Second version: one schema with optional sign-up fields *)

Definition AuthSchema : Zod.schema :=
  Zod.refine
    (Zod.object [
       ("name", Zod.optional (Zod.string_ [Zod.min 1 "Name is required"]));
       ("email", Zod.string_ [Zod.email "Invalid email address"]);
       ("password", Zod.string_ [Zod.min 6 "Password must be at least 6 characters"]);
       ("confirmPassword", Zod.optional (Zod.string_ []))
     ])
    (fun data =>
       Zod.falsy (Zod.prop data "confirmPassword")
       || Zod.strict_eq (Zod.prop data "password") (Zod.prop data "confirmPassword")
       || Zod.falsy (Zod.prop data "password"))
    "Passwords do not match"
    ["confirmPassword"].

Definition SingleCard : Variant :=
  {| resolverSchema := fun _ => AuthSchema;
     blank := {[ "name" := ""; "email" := ""; "password" := "";
                 "confirmPassword" := "" ]};
     toggleReset := None;
     inputs := fun isLogin =>
       if isLogin then ["email"; "password"]
       else ["name"; "email"; "password"; "confirmPassword"];
     logOnSubmit := None;
     logOnAccept := Some (fun wasLogin : bool =>
       if wasLogin then "Logging in with" else "Signing up with") |}.

End AuthCard.

(** ** The route table of the entry point

    The [<Routes>] element of the entry point, with the matching that
    react-router does for patterns without parameters. *)

Module Router.

Inductive element : Type :=
| Navigate (to : string)
| Page (component : string).

(** [<Routes>] of the entry point, in source order. *)
Definition routes : list (string * element) := [
  ("/", Navigate "/home");
  ("/home", Page "Home");
  ("/faqs", Page "FAQs");
  ("/about", Page "About");
  ("/create-case", Page "CreateCase");
  ("/track-case", Page "TrackCase");
  ("/login", Page "Login")
].

Definition lower (c : ascii) : ascii :=
  if Zod.between "A" "Z" c then ascii_of_nat (nat_of_ascii c + 32) else c.

Fixpoint lowercase (s : string) : string :=
  match s with
  | EmptyString => EmptyString
  | String c rest => String (lower c) (lowercase rest)
  end.

Fixpoint strip_trailing_slashes (s : string) : string :=
  match s with
  | EmptyString => EmptyString
  | String c rest =>
      match strip_trailing_slashes rest with
      | EmptyString => if Ascii.eqb c "/" then EmptyString else String c EmptyString
      | kept => String c kept
      end
  end.

(** A static pattern matches a pathname up to letter case and
    trailing slashes. *)
Definition matchPath (pattern pathname : string) : bool :=
  String.eqb (lowercase (strip_trailing_slashes pattern))
             (lowercase (strip_trailing_slashes pathname)).

Definition matchRoutes (pathname : string) : option element :=
  option_map snd (List.find (fun r => matchPath r.1 pathname) routes).

(** What the browser ends up showing. [<Navigate to>] renders nothing
    and moves the location, after which the routes match again. *)
Inductive shown : Type :=
| Displays (pathname component : string)
| Nothing (pathname : string)
| Redirecting (pathname : string).

Fixpoint settle (hops : nat) (pathname : string) : shown :=
  match matchRoutes pathname with
  | None => Nothing pathname
  | Some (Page component) => Displays pathname component
  | Some (Navigate to) =>
      match hops with
      | O => Redirecting to
      | S fewer => settle fewer to
      end
  end.

Definition visit (pathname : string) : shown :=
  settle (length routes) pathname.

End Router.

(** ** Runs of the carousel, counted *)

Module SlideText.

(** What an event adds to the index, before the remainder is taken. *)
Definition shift (ev : Slides.Event) : Z :=
  match ev with
  | Slides.Tick | Slides.ClickNext => 1
  | Slides.ClickPrev => -1
  end.

Definition net (evs : list Slides.Event) : Z :=
  fold_right (fun ev total => (shift ev + total)%Z) 0%Z evs.

End SlideText.

(** ** The navigation bar

    The repository holds two versions of [ProfessionalNavbar]. The second
    animates the theme switch: it ignores clicks while a switch is under
    way and ends the animation from a timer. *)

Module Navbar.

Record Link : Type := {
  name : string;
  path : string;
  isPrimary : bool;
  isAction : bool;
  description : option string
}.

(** [navLinks] of the first version. *)
Definition navLinks : list Link := [
  {| name := "Home"; path := "/home"; isPrimary := false; isAction := false;
     description := None |};
  {| name := "FAQs"; path := "/faqs"; isPrimary := false; isAction := false;
     description := None |};
  {| name := "About"; path := "/about"; isPrimary := false; isAction := false;
     description := None |};
  {| name := "Create Case"; path := "/create-case"; isPrimary := true; isAction := false;
     description := None |};
  {| name := "Track Case"; path := "/track-case"; isPrimary := false; isAction := false;
     description := None |};
  {| name := "Login"; path := "/login"; isPrimary := false; isAction := true;
     description := None |}
].

(** [navigationLinks] of the second version. *)
Definition navigationLinks : list Link := [
  {| name := "Home"; path := "/home"; isPrimary := false; isAction := false;
     description := Some "Return to dashboard" |};
  {| name := "FAQs"; path := "/faqs"; isPrimary := false; isAction := false;
     description := Some "Frequently asked questions" |};
  {| name := "About"; path := "/about"; isPrimary := false; isAction := false;
     description := Some "Learn about our platform" |};
  {| name := "Create Case"; path := "/create-case"; isPrimary := true; isAction := false;
     description := Some "Start a new case file" |};
  {| name := "Track Case"; path := "/track-case"; isPrimary := false; isAction := false;
     description := Some "Monitor case progress" |};
  {| name := "Login"; path := "/login"; isPrimary := false; isAction := true;
     description := Some "Access your account" |}
].

(** The targets of the three support cards of the home page
    (src/components/Support.tsx) and of the logo. *)
Definition supportPaths : list string := ["/create-case"; "/track-case"; "/faqs"].
Definition logoPath : string := "/home".


(** The browser state the bar reads and writes. *)
Record Page : Type := {
  classList : gset string;             (* of [document.documentElement] *)
  localStorage : gmap string string;
  prefersDark : bool;                  (* the [prefers-color-scheme: dark] media query *)
  elementIds : list string             (* ids of the elements of the document *)
}.

Record State : Type := {
  isOpen : bool;
  scrolled : bool;
  theme : string;
  isAnimating : bool;
  location : string;
  page : Page;
  clock : nat;
  timers : list nat                    (* due times of the animation's end *)
}.

Inductive Version : Type := Plain | Animated.

Definition scrollThreshold (ver : Version) : Z :=
  match ver with
  | Plain => 50
  | Animated => 20
  end.

(** [classList.toggle(token, force)], [.add] and [.remove] *)
Definition classToggle (token : string) (force : bool) (classes : gset string)
  : gset string :=
  if force then {[ token ]} ∪ classes else classes ∖ {[ token ]}.

Definition withClasses (f : gset string -> gset string) (p : Page) : Page :=
  {| classList := f (classList p); localStorage := localStorage p;
     prefersDark := prefersDark p; elementIds := elementIds p |}.

(** [localStorage.setItem(key, value)] *)
Definition setItem (key value : string) (p : Page) : Page :=
  {| classList := classList p; localStorage := <[key := value]> (localStorage p);
     prefersDark := prefersDark p; elementIds := elementIds p |}.

(** Run when the second version's module is loaded: the style element
    is added unless an element with its id exists. *)
Definition injectThemeStyles (p : Page) : Page :=
  if bool_decide ("theme-transition-style" ∈ elementIds p) then p
  else {| classList := classList p; localStorage := localStorage p;
          prefersDark := prefersDark p;
          elementIds := elementIds p ++ ["theme-transition-style"] |}.

(** [storedTheme || systemPreference]: a missing and an empty stored
    value both give way to the system preference. *)
Definition initialTheme (p : Page) : string :=
  match localStorage p !! "theme" with
  | Some (String _ _ as storedTheme) => storedTheme
  | _ => if prefersDark p then "dark" else "light"
  end.

(** The state once the effects of the first render have run. The scroll
    listener is only registered; it does not read the position. *)
Definition mount (pathname : string) (p : Page) : State :=
  let initial := initialTheme p in
  {| isOpen := false; scrolled := false; theme := initial; isAnimating := false;
     location := pathname;
     page := withClasses (classToggle "dark" (String.eqb initial "dark")) p;
     clock := 0; timers := [] |}.

Definition toggleTheme (ver : Version) (st : State) : State :=
  let newTheme := if String.eqb (theme st) "dark" then "light" else "dark" in
  match ver with
  | Plain =>
      {| isOpen := isOpen st; scrolled := scrolled st; theme := newTheme;
         isAnimating := isAnimating st; location := location st;
         page := setItem "theme" newTheme
                   (withClasses (classToggle "dark" (String.eqb newTheme "dark")) (page st));
         clock := clock st; timers := timers st |}
  | Animated =>
      if isAnimating st then st
      else
        {| isOpen := isOpen st; scrolled := scrolled st; theme := newTheme;
           isAnimating := true; location := location st;
           page := setItem "theme" newTheme
                     (withClasses
                        (fun classes =>
                           classToggle "dark" (String.eqb newTheme "dark")
                             (classToggle "theme-transition" true classes))
                        (page st));
           clock := clock st; timers := timers st ++ [clock st + 300] |}
  end.

(** The callback that ends the animation. *)
Definition endAnimation (st : State) : State :=
  {| isOpen := isOpen st; scrolled := scrolled st; theme := theme st;
     isAnimating := false; location := location st;
     page := withClasses (classToggle "theme-transition" false) (page st);
     clock := clock st; timers := timers st |}.

Definition tick (st : State) : State :=
  let now := S (clock st) in
  let due := filter (fun t => t <= now)%nat (timers st) in
  let pending := filter (fun t => now < t)%nat (timers st) in
  fold_left (fun s _ => endAnimation s) due
    {| isOpen := isOpen st; scrolled := scrolled st; theme := theme st;
       isAnimating := isAnimating st; location := location st; page := page st;
       clock := now; timers := pending |}.

Inductive Event : Type :=
| Scroll (scrollY : Z)       (* a scroll event, with the new [window.scrollY] *)
| ClickTheme
| ClickMenu
| Navigate (to : string)     (* the location changes *)
| Wait.                      (* one unit of time *)

Definition step (ver : Version) (ev : Event) (st : State) : State :=
  match ev with
  | Scroll scrollY =>
      {| isOpen := isOpen st; scrolled := (scrollThreshold ver <? scrollY)%Z;
         theme := theme st; isAnimating := isAnimating st; location := location st;
         page := page st; clock := clock st; timers := timers st |}
  | ClickTheme => toggleTheme ver st
  | ClickMenu =>
      {| isOpen := negb (isOpen st); scrolled := scrolled st;
         theme := theme st; isAnimating := isAnimating st; location := location st;
         page := page st; clock := clock st; timers := timers st |}
  | Navigate to =>
      {| isOpen := false; scrolled := scrolled st;
         theme := theme st; isAnimating := isAnimating st; location := to;
         page := page st; clock := clock st; timers := timers st |}
  | Wait => tick st
  end.

Definition run (ver : Version) (pathname : string) (p : Page) (evs : list Event) : State :=
  fold_left (fun st ev => step ver ev st) evs (mount pathname p).


End Navbar.

(** ** Runs of the authentication card from any state *)

Module AuthRuns.

Definition play (v : AuthCard.Variant) (evs : list (AuthCard.Event)) (st : AuthCard.State)
  : AuthCard.State :=
  fold_left (fun s ev => AuthCard.step v ev s) evs st.

Definition isWait (ev : AuthCard.Event) : bool :=
  match ev with
  | AuthCard.Wait => true
  | _ => false
  end.

(** The time that passes during a list of events. *)
Definition waits (evs : list AuthCard.Event) : nat :=
  length (List.filter isWait evs).

Definition isAccepted (t : nat * AuthCard.callback) : bool :=
  match t.2 with
  | AuthCard.accepted _ _ => true
  | AuthCard.successShown => false
  end.

(** A submission under way with [left] units to go: the callback that
    accepts it is the last timer of the queue, behind callbacks that only
    clear the success flag. *)
Definition submittingFor (left : nat) (st : AuthCard.State) : Prop :=
  AuthCard.submitting st = true /\
  exists shown wasLogin data,
    AuthCard.timers st =
      shown ++ [(AuthCard.clock st + left, AuthCard.accepted wasLogin data)]%nat /\
    Forall (fun t => isAccepted t = false) shown.

(** The shape of the timer queue: nothing is overdue; while a
    submission is under way exactly one acceptance is pending, due within
    800 units, and otherwise none is. *)
Definition queue_ok (st : AuthCard.State) : Prop :=
  Forall (fun t => AuthCard.clock st < t.1)%nat (AuthCard.timers st) /\
  if AuthCard.submitting st
  then exists left, (1 <= left <= 800)%nat /\ submittingFor left st
  else Forall (fun t => isAccepted t = false) (AuthCard.timers st).

(** Data that passed the schema of a mode: the parsed object of form
    values on which the schema reports nothing. *)
Definition validated (v : AuthCard.Variant) (wasLogin : bool)
    (data : gmap string Zod.value) : Prop :=
  exists formValues : gmap string string,
    Zod.safeParse (AuthCard.resolverSchema v wasLogin) (Zod.Str <$> formValues) = [] /\
    data = Zod.output (Zod.shape (AuthCard.resolverSchema v wasLogin)) (Zod.Str <$> formValues).

(** Every line of the console and every pending acceptance carries
    validated data, under the text the version prints for its mode. *)
Definition reports_ok (v : AuthCard.Variant) (st : AuthCard.State) : Prop :=
  Forall (fun t => match t.2 with
                   | AuthCard.accepted wasLogin data =>
                       validated v wasLogin data /\
                       (v = AuthCard.SingleCard -> wasLogin = false)
                   | AuthCard.successShown => True
                   end) (AuthCard.timers st) /\
  Forall (fun line => exists wasLogin,
            validated v wasLogin line.2 /\
            (v = AuthCard.SingleCard -> wasLogin = false) /\
            (AuthCard.logOnSubmit v = Some line.1 \/
             exists text, AuthCard.logOnAccept v = Some text /\ line.1 = text wasLogin))
         (AuthCard.console st).

(** While the success flag is set, a callback that clears it is
    pending, due within 2000 units. *)
Definition success_expires (st : AuthCard.State) : Prop :=
  AuthCard.success st = true ->
  exists due, (due, AuthCard.successShown) ∈ AuthCard.timers st /\
              (AuthCard.clock st < due <= AuthCard.clock st + 2000)%nat.

End AuthRuns.

(** ** Statements about the bar and the carousel's words *)

Module NavbarFacts.
Import Navbar.

(** The three stores of the theme agree: the class on the document, the
    state of the bar and, once written, the stored preference. [p0] is
    the page the bar was mounted on. *)
Definition consistent (p0 : Page) (st : State) : Prop :=
  ("dark" ∈ classList (page st) <-> theme st = "dark") /\
  prefersDark (page st) = prefersDark p0 /\
  ((localStorage (page st) !! "theme" = Some (theme st) /\ theme st <> "") \/
   (localStorage (page st) = localStorage p0 /\ theme st = initialTheme p0)).

(** The animation of the second version: the flag, the class and the
    timer go together, and the timer is due within the 300 units. *)
Definition animation_ok (st : State) : Prop :=
  (isAnimating st = true <-> "theme-transition" ∈ classList (page st)) /\
  (if isAnimating st
   then exists due, timers st = [due] /\ (clock st < due <= clock st + 300)%nat
   else timers st = []).

Definition isClickTheme (ev : Event) : bool :=
  match ev with
  | ClickTheme => true
  | _ => false
  end.

Definition isWait (ev : Event) : bool :=
  match ev with
  | Wait => true
  | _ => false
  end.

Definition waits (evs : list Event) : nat := length (List.filter isWait evs).

Definition play (ver : Version) (evs : list Event) (st : State) : State :=
  fold_left (fun s ev => step ver ev s) evs st.

(** The stored preference is the current theme, and that is one of the
    two names. *)
Definition written (st : State) : Prop :=
  localStorage (page st) !! "theme" = Some (theme st) /\
  (theme st = "dark" \/ theme st = "light").

(** An animation with [left] units to go towards the theme [target]. *)
Definition animating (target : string) (left : nat) (st : State) : Prop :=
  isAnimating st = true /\ timers st = [clock st + left]%nat /\ theme st = target.

End NavbarFacts.

Module Words.

(** Whether a character occurs in a string. *)
Fixpoint mentions (c : ascii) (s : string) : bool :=
  match s with
  | EmptyString => false
  | String d rest => Ascii.eqb d c || mentions c rest
  end.

End Words.

(** * Properties *)

(** ** Carousel *)

Section CarouselFacts.
Import Js Slides.
Local Open Scope Z_scope.

Variable N : Z.
Hypothesis N_positive : 1 <= N.

Lemma nextSlide_mod i :
  0 <= i < N -> nextSlide (Int N) (Int i) = Int ((i + 1) mod N).
Proof using N_positive.
  intros Hi. unfold nextSlide, add, rem.
  destruct (Z.eqb_spec N 0) as [->|_]; [lia|].
  f_equal. apply Z.rem_mod_nonneg; lia.
Qed.

Lemma prevSlide_mod i :
  0 <= i < N -> prevSlide (Int N) (Int i) = Int ((i - 1 + N) mod N).
Proof using N_positive.
  intros Hi. unfold prevSlide, add, sub, rem.
  destruct (Z.eqb_spec N 0) as [->|_]; [lia|].
  f_equal. apply Z.rem_mod_nonneg; lia.
Qed.

Lemma nextSlide_in_range x :
  in_range N x -> in_range N (nextSlide (Int N) x).
Proof using N_positive.
  destruct x as [i|]; [|contradiction]. cbn [in_range]. intros Hi.
  rewrite nextSlide_mod by exact Hi. cbn [in_range].
  apply Z.mod_pos_bound. lia.
Qed.

Lemma prevSlide_in_range x :
  in_range N x -> in_range N (prevSlide (Int N) x).
Proof using N_positive.
  destruct x as [i|]; [|contradiction]. cbn [in_range]. intros Hi.
  rewrite prevSlide_mod by exact Hi. cbn [in_range].
  apply Z.mod_pos_bound. lia.
Qed.

Lemma nextSlide_steps i (k : nat) :
  0 <= i < N ->
  Nat.iter k (nextSlide (Int N)) (Int i) = Int ((i + Z.of_nat k) mod N).
Proof using N_positive.
  intros Hi. induction k as [|k IH].
  - cbn. rewrite Z.add_0_r, Z.mod_small; [reflexivity | exact Hi].
  - rewrite Nat.iter_succ, IH.
    rewrite nextSlide_mod by (apply Z.mod_pos_bound; lia).
    rewrite Zplus_mod_idemp_l. do 2 f_equal. lia.
Qed.

Lemma next_after_prev i :
  0 <= i < N -> nextSlide (Int N) (prevSlide (Int N) (Int i)) = Int i.
Proof using N_positive.
  intros Hi. rewrite prevSlide_mod by exact Hi.
  rewrite nextSlide_mod by (apply Z.mod_pos_bound; lia).
  rewrite Zplus_mod_idemp_l.
  replace (i - 1 + N + 1) with (i + 1 * N) by lia.
  rewrite Z_mod_plus_full, Z.mod_small; [reflexivity | exact Hi].
Qed.

Lemma prev_after_next i :
  0 <= i < N -> prevSlide (Int N) (nextSlide (Int N) (Int i)) = Int i.
Proof using N_positive.
  intros Hi. rewrite nextSlide_mod by exact Hi.
  rewrite prevSlide_mod by (apply Z.mod_pos_bound; lia).
  replace ((i + 1) mod N - 1 + N) with ((i + 1) mod N + (N - 1)) by lia.
  rewrite Zplus_mod_idemp_l.
  replace (i + 1 + (N - 1)) with (i + 1 * N) by lia.
  rewrite Z_mod_plus_full, Z.mod_small; [reflexivity | exact Hi].
Qed.

End CarouselFacts.

(** C4. For every slide count [N >= 1] and every start index [i] with
    [0 <= i < N], applying the advance operation [(prev + 1) % N] [N]
    times brings the current index back to [i]. *)
Theorem advance_cycle_closes (N i : Z) :
  (1 <= N)%Z -> (0 <= i < N)%Z ->
  Nat.iter (Z.to_nat N) (Slides.nextSlide (Js.Int N)) (Js.Int i) = Js.Int i.
Proof.
  intros HN Hi. rewrite nextSlide_steps by assumption.
  rewrite Z2Nat.id by lia.
  replace (i + N)%Z with (i + 1 * N)%Z by lia.
  rewrite Z_mod_plus_full, Z.mod_small; [reflexivity | exact Hi].
Qed.

Lemma advance_cycle_closes_witness :
  Nat.iter (Z.to_nat 4) (Slides.nextSlide (Js.Int 4)) (Js.Int 2) = Js.Int 2.
Proof. apply (advance_cycle_closes 4 2); lia. Defined.

(** C5. For every slide count [N >= 1] the invariant
    [0 <= currentIndex < N] holds of the initial index [0] and is kept by
    every advance [(prev + 1) % N] and every retreat
    [(prev - 1 + N) % N]; and from any index in range a retreat followed
    by an advance, or an advance followed by a retreat, gives the index
    back. *)
Theorem index_invariant_and_inverses (N : Z) :
  (1 <= N)%Z ->
  Slides.in_range N (Js.Int 0) /\
  forall x, Slides.in_range N x ->
    Slides.in_range N (Slides.nextSlide (Js.Int N) x) /\
    Slides.in_range N (Slides.prevSlide (Js.Int N) x) /\
    Slides.nextSlide (Js.Int N) (Slides.prevSlide (Js.Int N) x) = x /\
    Slides.prevSlide (Js.Int N) (Slides.nextSlide (Js.Int N) x) = x.
Proof.
  intros HN. split; [cbn; lia|].
  intros x Hx. split; [|split; [|split]].
  - apply nextSlide_in_range; assumption.
  - apply prevSlide_in_range; assumption.
  - destruct x as [i|]; [|contradiction]. apply next_after_prev; assumption.
  - destruct x as [i|]; [|contradiction]. apply prev_after_next; assumption.
Qed.

Lemma index_invariant_and_inverses_witness :
  Slides.in_range 4 (Js.Int 0) /\
  Slides.nextSlide (Js.Int 4) (Slides.prevSlide (Js.Int 4) (Js.Int 0)) = Js.Int 0.
Proof.
  destruct (index_invariant_and_inverses 4 ltac:(lia)) as [H0 H].
  split; [exact H0|].
  apply (H (Js.Int 0)). cbn. lia.
Defined.

Section CarouselRuns.
Import Js Slides.

Variable deck : list Slide.

Lemma render_in_range x :
  in_range (Z.of_nat (length deck)) x -> exists view, render deck x = Normal view.
Proof.
  destruct x as [i|]; [|contradiction]. cbn [in_range]. intros Hi.
  unfold render, at_index.
  destruct (Z.ltb_spec i 0) as [?|_]; [lia|].
  destruct (nth_error deck (Z.to_nat i)) as [data|] eqn:Hnth; [eauto|].
  apply nth_error_None in Hnth. lia.
Qed.

Lemma handle_in_range ev c :
  deck <> [] ->
  in_range (Z.of_nat (length deck)) (currentSlide c) ->
  exists c', handle deck ev c = Normal c' /\
             in_range (Z.of_nat (length deck)) (currentSlide c').
Proof.
  intros Hdeck Hc.
  assert (1 <= Z.of_nat (length deck))%Z as HN by (destruct deck; [done | cbn; lia]).
  assert (in_range (Z.of_nat (length deck)) (updater deck ev (currentSlide c))) as Hnext.
  { destruct ev; cbn [updater]; unfold totalSlides;
      auto using nextSlide_in_range, prevSlide_in_range. }
  unfold handle. destruct (render_in_range _ Hnext) as [view ->]. eauto.
Qed.

Lemma run_from_in_range evs : forall c evaluated,
  deck <> [] ->
  in_range (Z.of_nat (length deck)) (currentSlide c) ->
  exists c', (run_from deck (Normal c) evaluated evs).1 = Normal c' /\
             in_range (Z.of_nat (length deck)) (currentSlide c').
Proof.
  induction evs as [|ev evs IH]; intros c evaluated Hdeck Hc; cbn [run_from].
  - eauto.
  - destruct (handle_in_range ev c Hdeck Hc) as (c' & -> & Hc'). eauto.
Qed.

(** A carousel over a non-empty list never leaves the range of its
    slides, whatever the timer and the user do. *)
Lemma run_index_in_range evs :
  deck <> [] ->
  exists c, (run deck evs).1 = Normal c /\
            in_range (Z.of_nat (length deck)) (currentSlide c).
Proof.
  intros Hdeck. unfold run, mount.
  assert (in_range (Z.of_nat (length deck)) (Int 0)) as H0
    by (destruct deck; [done | cbn; lia]).
  destruct (render_in_range _ H0) as [view ->].
  apply run_from_in_range; [exact Hdeck | exact H0].
Qed.

Lemma run_from_thrown e evaluated evs :
  run_from deck (Throw e) evaluated evs = (Throw e, evaluated).
Proof. destruct evs; reflexivity. Qed.

Lemma run_from_modulus evs : forall c evaluated,
  deck <> [] ->
  Forall (fun ops => ops.2 <> Int 0) evaluated ->
  Forall (fun ops => ops.2 <> Int 0) (run_from deck c evaluated evs).2.
Proof.
  induction evs as [|ev evs IH]; intros c evaluated Hdeck Hlog; cbn [run_from].
  - exact Hlog.
  - destruct c as [i|e]; [|exact Hlog].
    apply IH; [exact Hdeck|]. constructor; [|exact Hlog].
    destruct deck; [done|]. destruct ev; cbn; intros [=].
Qed.

End CarouselRuns.

(** What the updater would compute over no slides, were it ever run. *)
Example advance_over_no_slides :
  Slides.nextSlide (Js.Int 0) (Js.Int 0) = Js.NaN.
Proof. reflexivity. Qed.

(** The shipped carousel comes back to its first slide after four
    ticks. *)
Example shipped_carousel_cycles :
  (Slides.CreativeSlides [Slides.Tick; Slides.Tick; Slides.Tick; Slides.Tick]).1 =
  Js.Normal {| Slides.currentSlide := Js.Int 0; Slides.interval := 6500 |}.
Proof. reflexivity. Qed.

(** C3. With an empty slide list the construction of the carousel
    halts: the first render throws, no later event reaches a handler, and
    so no [%] is evaluated at all; in every run, of any slide list, no
    [%] is evaluated with zero as its modulus. *)
Theorem empty_deck_halts_construction :
  (exists e, Slides.mount [] = Js.Throw e) /\
  (forall evs, Slides.run [] evs = (Slides.mount [], [])) /\
  (forall deck evs, Forall (fun ops => ops.2 <> Js.Int 0) (Slides.run deck evs).2).
Proof.
  split; [|split].
  - eexists. reflexivity.
  - intros evs. unfold Slides.run.
    change (Slides.mount []) with (@Js.Throw Slides.Instance
      (Js.TypeError "Cannot read properties of undefined (reading 'title')")).
    apply run_from_thrown.
  - intros deck evs. destruct deck as [|s deck].
    + unfold Slides.run.
      change (Slides.mount []) with (@Js.Throw Slides.Instance
        (Js.TypeError "Cannot read properties of undefined (reading 'title')")).
      rewrite run_from_thrown. constructor.
    + apply run_from_modulus; [done | constructor].
Qed.

(** ** Validation *)

Section ResolverFacts.
Import Zod Resolvers.

Lemma parseErrorSchema_from (acc : gmap string string) issues name :
  fold_left record issues acc !! name =
  match acc !! name with
  | Some m => Some m
  | None => message <$> List.find (at_path name) issues
  end.
Proof.
  revert acc. induction issues as [|i issues IH]; intros acc; cbn [fold_left List.find].
  - destruct (acc !! name); reflexivity.
  - rewrite IH. unfold record, at_path at 2. cbn zeta.
    destruct (String.eqb_spec (join_path (path i)) name) as [->|Hne].
    + destruct (acc !! name) as [m|] eqn:Hacc.
      * rewrite Hacc. reflexivity.
      * rewrite lookup_insert_eq. reflexivity.
    + destruct (acc !! join_path (path i)); [reflexivity|].
      rewrite lookup_insert_ne by exact Hne. reflexivity.
Qed.

(** The message shown for a field is that of its first issue. *)
Lemma parseErrorSchema_lookup issues name :
  parseErrorSchema issues !! name = message <$> List.find (at_path name) issues.
Proof.
  unfold parseErrorSchema. rewrite parseErrorSchema_from.
  rewrite lookup_empty. reflexivity.
Qed.

Lemma zodResolver_errors s formValues :
  errors (zodResolver s formValues) = parseErrorSchema (safeParse s (Str <$> formValues)).
Proof.
  unfold zodResolver. destruct (safeParse s (Str <$> formValues)); reflexivity.
Qed.

Lemma zodResolver_clean s formValues :
  errors (zodResolver s formValues) = ∅ <-> safeParse s (Str <$> formValues) = [].
Proof.
  rewrite zodResolver_errors. split.
  - destruct (safeParse s (Str <$> formValues)) as [|i rest]; [reflexivity|].
    intros Hempty.
    assert (parseErrorSchema (i :: rest) !! join_path (path i) = None) as Hnone
      by (rewrite Hempty; apply lookup_empty).
    rewrite parseErrorSchema_lookup in Hnone. cbn [List.find] in Hnone.
    unfold at_path in Hnone at 1. rewrite String.eqb_refl in Hnone. discriminate.
  - intros ->. reflexivity.
Qed.

Lemma prop_form (formValues : gmap string string) key :
  prop (Str <$> formValues) key =
  match formValues !! key with
  | Some s => Str s
  | None => Undefined
  end.
Proof. unfold prop. rewrite lookup_fmap. destruct (formValues !! key); reflexivity. Qed.

Lemma prop_output fields (data : gmap string value) key :
  key ∈ fields.*1 -> prop (output fields data) key = prop data key.
Proof.
  intros Hkey. unfold prop, output.
  destruct (data !! key) as [x|] eqn:Hdata.
  - erewrite (proj2 (map_lookup_filter_Some _ _ _ _)); [reflexivity|].
    split; [exact Hdata | exact Hkey].
  - rewrite map_lookup_filter_None_2; [reflexivity|]. left. exact Hdata.
Qed.

End ResolverFacts.

Section SchemaFacts.
Import Zod Resolvers AuthCard.

Lemma strict_eq_Str p c : strict_eq (Str p) (Str c) = bool_decide (p = c).
Proof.
  unfold strict_eq. destruct (decide (p = c)) as [->|Hne].
  - rewrite !bool_decide_eq_true_2; done.
  - rewrite !bool_decide_eq_false_2; [done | done | congruence].
Qed.

Lemma falsy_Str s : falsy (Str s) = bool_decide (s = "").
Proof. destruct s; reflexivity. Qed.

Lemma too_short s n : (String.length s < n)%nat -> (String.length s <? n)%nat = true.
Proof. apply Nat.ltb_lt. Qed.

Lemma long_enough s n : (n <= String.length s)%nat -> (String.length s <? n)%nat = false.
Proof. apply Nat.ltb_ge. Qed.

(** Unfolds the parse of one of the three schemas down to the property
    reads and the checks. *)
Ltac open_schema :=
  unfold safeParse, LoginSchema, SignupSchema, AuthSchema, refine, object;
  cbn [shape refinements parse_shape parse_type app omap list_omap];
  unfold run_refinement; cbn [predicate refine_message refine_path];
  rewrite ?prop_output
    by (cbn; repeat first [apply list_elem_of_here | apply list_elem_of_further]);
  rewrite ?prop_form.

Ltac split_checks :=
  repeat match goal with
  | |- context [emailRegex ?e] => destruct (emailRegex e)
  | |- context [(String.length ?s <? ?n)%nat] => destruct (String.length s <? n)%nat
  | |- context [bool_decide ?P] => destruct (bool_decide P)
  | |- context [match ?vals !! ?k with _ => _ end] => destruct (vals !! k)
  end.

Lemma login_short_password (vals : gmap string string) p :
  vals !! "password" = Some p -> (String.length p < 8)%nat ->
  List.find (at_path "password") (safeParse LoginSchema (Str <$> vals)) =
  Some {| path := ["password"];
          message := "Password must be at least 8 characters" |}.
Proof.
  intros Hp Hlen. open_schema. rewrite Hp. unfold run_check.
  rewrite (too_short p 8 Hlen). split_checks; reflexivity.
Qed.

Lemma auth_short_password (vals : gmap string string) p :
  vals !! "password" = Some p -> (String.length p < 6)%nat ->
  List.find (at_path "password") (safeParse AuthSchema (Str <$> vals)) =
  Some {| path := ["password"];
          message := "Password must be at least 6 characters" |}.
Proof.
  intros Hp Hlen. open_schema. rewrite Hp. unfold run_check.
  rewrite (too_short p 6 Hlen). rewrite ?falsy_Str, ?strict_eq_Str.
  split_checks; try reflexivity.
Qed.

Lemma login_accepts (vals : gmap string string) e p :
  vals !! "email" = Some e -> emailRegex e = true ->
  vals !! "password" = Some p -> (8 <= String.length p)%nat ->
  safeParse LoginSchema (Str <$> vals) = [].
Proof.
  intros He Hmail Hp Hlen. open_schema. rewrite He, Hp. unfold run_check.
  rewrite Hmail, (long_enough p 8 Hlen). reflexivity.
Qed.

Lemma auth_blank_name (vals : gmap string string) :
  vals !! "name" = Some "" ->
  List.find (at_path "name") (safeParse AuthSchema (Str <$> vals)) =
  Some {| path := ["name"]; message := "Name is required" |}.
Proof.
  intros Hname. open_schema. rewrite Hname. unfold run_check.
  change (String.length "" <? 1)%nat with true.
  rewrite ?falsy_Str, ?strict_eq_Str. split_checks; reflexivity.
Qed.

Lemma signup_mismatch (vals : gmap string string) e ph f l p c :
  vals !! "email" = Some e -> vals !! "phoneNumber" = Some ph ->
  vals !! "firstName" = Some f -> vals !! "lastName" = Some l ->
  vals !! "password" = Some p -> vals !! "confirmPassword" = Some c ->
  p <> c ->
  List.find (at_path "confirmPassword") (safeParse SignupSchema (Str <$> vals)) =
    Some {| path := ["confirmPassword"]; message := "Passwords do not match" |} /\
  ((8 <= String.length p)%nat ->
   List.find (at_path "password") (safeParse SignupSchema (Str <$> vals)) = None).
Proof.
  intros He Hph Hf Hl Hp Hc Hne. split; [|intros Hlen]; open_schema;
    rewrite He, Hph, Hf, Hl, Hp, Hc, strict_eq_Str, bool_decide_eq_false_2 by exact Hne;
    unfold run_check; rewrite ?(long_enough p 8) by assumption;
    split_checks; reflexivity.
Qed.

Lemma auth_mismatch (vals : gmap string string) n e p c :
  vals !! "name" = Some n -> vals !! "email" = Some e ->
  vals !! "password" = Some p -> vals !! "confirmPassword" = Some c ->
  p <> c -> p <> "" -> c <> "" ->
  List.find (at_path "confirmPassword") (safeParse AuthSchema (Str <$> vals)) =
    Some {| path := ["confirmPassword"]; message := "Passwords do not match" |} /\
  ((6 <= String.length p)%nat ->
   List.find (at_path "password") (safeParse AuthSchema (Str <$> vals)) = None).
Proof.
  intros Hn He Hp Hc Hne Hpne Hcne. split; [|intros Hlen]; open_schema;
    rewrite Hn, He, Hp, Hc, strict_eq_Str, !falsy_Str;
    rewrite !bool_decide_eq_false_2 by assumption;
    unfold run_check; rewrite ?(long_enough p 6) by assumption;
    split_checks; reflexivity.
Qed.

(** With an empty password the cross-field predicate holds and nothing
    is reported under [confirmPassword], whatever else the object
    holds. *)
Lemma auth_empty_password (data : gmap string value) :
  prop data "password" = Str "" ->
  Forall (fun r => predicate r (output (shape AuthSchema) data) = true)
         (refinements AuthSchema) /\
  List.find (at_path "confirmPassword") (safeParse AuthSchema data) = None.
Proof.
  intros Hp. split.
  - repeat constructor. cbn [AuthSchema refine predicate shape object].
    rewrite !prop_output
      by (cbn; repeat first [apply list_elem_of_here | apply list_elem_of_further]).
    rewrite Hp. cbn [falsy]. apply orb_true_r.
  - open_schema. rewrite Hp. cbn [falsy]. rewrite orb_true_r.
    unfold run_check.
    destruct (prop data "name") as [|n], (prop data "email") as [|e],
      (prop data "confirmPassword") as [|c]; cbn [parse_type omap list_omap];
      split_checks; reflexivity.
Qed.
End SchemaFacts.

Section FormFacts.
Import Zod Resolvers AuthCard.

Lemma errors_at s (vals : gmap string string) name i :
  List.find (at_path name) (safeParse s (Str <$> vals)) = Some i ->
  errors (zodResolver s vals) !! name = Some (message i).
Proof.
  intros Hfind. rewrite zodResolver_errors, parseErrorSchema_lookup, Hfind. reflexivity.
Qed.

Lemma no_error_at s (vals : gmap string string) name :
  List.find (at_path name) (safeParse s (Str <$> vals)) = None ->
  errors (zodResolver s vals) !! name = None.
Proof.
  intros Hfind. rewrite zodResolver_errors, parseErrorSchema_lookup, Hfind. reflexivity.
Qed.

Lemma invalid_with_error v st name m :
  errors (resolver v st (HookForm.values (form st))) !! name = Some m ->
  isValid v st = false.
Proof.
  intros Herr. unfold isValid, HookForm.isValid.
  apply bool_decide_eq_false_2. intros Hempty.
  rewrite Hempty, lookup_empty in Herr. discriminate.
Qed.

End FormFacts.

(** C7. In sign-in mode, for every input whose password has length 5,
    validation reports an error for the [password] field and the submit
    control is disabled; this holds in both versions of the card. *)
Theorem short_password_blocks_sign_in (v : AuthCard.Variant) (st : AuthCard.State) (p : string) :
  v = AuthCard.SplitCard \/ v = AuthCard.SingleCard ->
  AuthCard.isLogin st = true ->
  HookForm.values (AuthCard.form st) !! "password" = Some p ->
  String.length p = 5 ->
  (exists i,
     In i (Zod.safeParse (AuthCard.resolverSchema v true)
             (Zod.Str <$> HookForm.values (AuthCard.form st))) /\
     Zod.path i = ["password"] /\
     Resolvers.errors (AuthCard.resolver v st (HookForm.values (AuthCard.form st)))
       !! "password" = Some (Zod.message i)) /\
  AuthCard.disabled v st = true.
Proof.
  intros Hv Hlogin Hp Hlen.
  assert (exists i,
    List.find (Resolvers.at_path "password")
      (Zod.safeParse (AuthCard.resolverSchema v true)
         (Zod.Str <$> HookForm.values (AuthCard.form st))) = Some i /\
    Zod.path i = ["password"]) as (i & Hfind & Hpath).
  { destruct Hv as [-> | ->]; eexists; (split; [|shelve]).
    - apply login_short_password with (p := p); [exact Hp | lia].
    - apply auth_short_password with (p := p); [exact Hp | lia].
    Unshelve. all: reflexivity. }
  assert (Resolvers.errors (AuthCard.resolver v st (HookForm.values (AuthCard.form st)))
            !! "password" = Some (Zod.message i)) as Herr.
  { unfold AuthCard.resolver. rewrite Hlogin. apply errors_at. exact Hfind. }
  split.
  - exists i. split; [|split; [exact Hpath | exact Herr]].
    apply find_some in Hfind. apply Hfind.
  - unfold AuthCard.disabled. rewrite (invalid_with_error _ _ _ _ Herr). reflexivity.
Qed.

Lemma short_password_blocks_sign_in_witness :
  exists st : AuthCard.State,
    AuthCard.isLogin st = true /\
    HookForm.values (AuthCard.form st) !! "password" = Some "abcde" /\
    AuthCard.disabled AuthCard.SplitCard st = true.
Proof.
  exists (AuthCard.step AuthCard.SplitCard (AuthCard.Input "password" "abcde")
            (AuthCard.mount AuthCard.SplitCard)).
  split; [reflexivity|]. split; [vm_compute; reflexivity|].
  apply (short_password_blocks_sign_in AuthCard.SplitCard _ "abcde").
  - left. reflexivity.
  - reflexivity.
  - vm_compute. reflexivity.
  - reflexivity.
Defined.

Section SignInFacts.
Import Zod Resolvers AuthCard.

(** What the single schema makes of a sign-in form: the name input is
    not rendered, its value is still the empty default, and the
    [min(1)] under [optional()] rejects it. *)
Lemma auth_sign_in_defaults (vals : gmap string string) e p :
  vals !! "name" = Some "" -> vals !! "email" = Some e -> emailRegex e = true ->
  vals !! "password" = Some p -> (6 <= String.length p)%nat ->
  vals !! "confirmPassword" = Some "" ->
  safeParse AuthSchema (Str <$> vals) =
  [{| path := ["name"]; message := "Name is required" |}].
Proof.
  intros Hn He Hmail Hp Hlen Hc.
  unfold safeParse, AuthSchema, refine, object.
  cbn [shape refinements parse_shape parse_type app omap list_omap].
  unfold run_refinement. cbn [predicate refine_message refine_path].
  rewrite ?prop_output
    by (cbn; repeat first [apply list_elem_of_here | apply list_elem_of_further]).
  rewrite ?prop_form, Hn, He, Hp, Hc. unfold run_check.
  rewrite Hmail, (long_enough p 6 Hlen). reflexivity.
Qed.

Lemma dom_lookup (vals blank : gmap string string) name :
  dom vals = dom blank -> is_Some (blank !! name) -> exists x, vals !! name = Some x.
Proof.
  intros Hdom Hblank. apply elem_of_dom in Hblank. rewrite <- Hdom in Hblank.
  apply elem_of_dom in Hblank. exact Hblank.
Qed.

End SignInFacts.

(** C8. Sign-in mode, e-mail [a@b.com], a password of length 8, every
    other field at its default. The version with a separate sign-in schema
    reports the form valid with no error; the version with the single
    schema reports it invalid, with "Name is required" on the name field
    that sign-in mode does not render. *)
Theorem sign_in_acceptance_by_version (p : string) :
  String.length p = 8 ->
  (forall st,
     AuthCard.isLogin st = true ->
     HookForm.values (AuthCard.form st) =
       <["email" := "a@b.com"]> (<["password" := p]> (AuthCard.blank AuthCard.SplitCard)) ->
     AuthCard.isValid AuthCard.SplitCard st = true /\
     Resolvers.errors
       (AuthCard.resolver AuthCard.SplitCard st (HookForm.values (AuthCard.form st))) = ∅) /\
  (forall st,
     AuthCard.isLogin st = true ->
     HookForm.values (AuthCard.form st) =
       <["email" := "a@b.com"]> (<["password" := p]> (AuthCard.blank AuthCard.SingleCard)) ->
     AuthCard.isValid AuthCard.SingleCard st = false /\
     Resolvers.errors
       (AuthCard.resolver AuthCard.SingleCard st (HookForm.values (AuthCard.form st))) =
       {[ "name" := "Name is required" ]}).
Proof.
  intros Hlen. split; intros st Hlogin Hvals.
  - assert (Resolvers.errors
      (AuthCard.resolver AuthCard.SplitCard st (HookForm.values (AuthCard.form st))) = ∅)
      as Hclean.
    { unfold AuthCard.resolver. rewrite Hlogin. apply zodResolver_clean.
      apply login_accepts with (e := "a@b.com") (p := p).
      - rewrite Hvals. vm_compute. reflexivity.
      - vm_compute. reflexivity.
      - rewrite Hvals. vm_compute. reflexivity.
      - lia. }
    split; [|exact Hclean].
    unfold AuthCard.isValid, HookForm.isValid. apply bool_decide_eq_true_2. exact Hclean.
  - assert (Resolvers.errors
      (AuthCard.resolver AuthCard.SingleCard st (HookForm.values (AuthCard.form st))) =
      {[ "name" := "Name is required" ]}) as Herrs.
    { unfold AuthCard.resolver. rewrite zodResolver_errors.
      cbn [AuthCard.resolverSchema AuthCard.SingleCard].
      rewrite auth_sign_in_defaults with (e := "a@b.com") (p := p).
      - vm_compute. reflexivity.
      - rewrite Hvals. vm_compute. reflexivity.
      - rewrite Hvals. vm_compute. reflexivity.
      - vm_compute. reflexivity.
      - rewrite Hvals. vm_compute. reflexivity.
      - lia.
      - rewrite Hvals. vm_compute. reflexivity. }
    split; [|exact Herrs].
    apply invalid_with_error with (name := "name") (m := "Name is required").
    rewrite Herrs. vm_compute. reflexivity.
Qed.

Lemma sign_in_acceptance_by_version_witness :
  let st := AuthCard.step AuthCard.SingleCard (AuthCard.Input "email" "a@b.com")
              (AuthCard.step AuthCard.SingleCard (AuthCard.Input "password" "abcdefgh")
                 (AuthCard.mount AuthCard.SingleCard)) in
  AuthCard.isLogin st = true /\
  AuthCard.isValid AuthCard.SingleCard st = false /\
  AuthCard.disabled AuthCard.SingleCard st = true.
Proof.
  intros st.
  destruct (sign_in_acceptance_by_version "abcdefgh" eq_refl) as [_ Hsingle].
  destruct (Hsingle st) as [Hinvalid _]; [reflexivity | vm_compute; reflexivity |].
  split; [reflexivity|]. split; [exact Hinvalid|].
  unfold AuthCard.disabled. rewrite Hinvalid. reflexivity.
Defined.

(** C9. In the version whose schema makes [confirmPassword] optional,
    for every input with an empty password the cross-field check passes
    whatever [confirmPassword] holds, so validation reports nothing under
    [confirmPassword]. *)
Theorem empty_password_skips_mismatch (data : gmap string Zod.value) :
  Zod.prop data "password" = Zod.Str "" ->
  Forall (fun r => Zod.predicate r (Zod.output (Zod.shape AuthCard.AuthSchema) data) = true)
         (Zod.refinements AuthCard.AuthSchema) /\
  (forall i, In i (Zod.safeParse AuthCard.AuthSchema data) ->
             Zod.path i <> ["confirmPassword"]) /\
  (forall formValues : gmap string string,
     data = Zod.Str <$> formValues ->
     Resolvers.errors (Resolvers.zodResolver AuthCard.AuthSchema formValues)
       !! "confirmPassword" = None).
Proof.
  intros Hp. destruct (auth_empty_password data Hp) as [Hpred Hfind].
  split; [exact Hpred|]. split.
  - intros i Hi Hpath.
    pose proof (find_none _ _ Hfind i Hi) as Hat.
    unfold Resolvers.at_path in Hat. rewrite Hpath in Hat. discriminate.
  - intros formValues ->. apply no_error_at. exact Hfind.
Qed.

Lemma empty_password_skips_mismatch_witness :
  Resolvers.errors
    (Resolvers.zodResolver AuthCard.AuthSchema
       {[ "name" := "Ama"; "email" := "a@b.com"; "password" := "";
          "confirmPassword" := "abcdefgh" ]}) !! "confirmPassword" = None.
Proof.
  refine (proj2 (proj2 (empty_password_skips_mismatch
    (Zod.Str <$> ({[ "name" := "Ama"; "email" := "a@b.com"; "password" := "";
                     "confirmPassword" := "abcdefgh" ]} : gmap string string)) _)) _ eq_refl).
  vm_compute. reflexivity.
Defined.

(** C2, as stated, fails in the version with the single schema: a
    sign-up input with a password and an empty confirmation differs in
    the two fields and is accepted without any error. *)
Lemma unconfirmed_password_accepted :
  let formValues : gmap string string :=
    {[ "name" := "Ama"; "email" := "a@b.com"; "password" := "abcdefgh";
       "confirmPassword" := "" ]} in
  formValues !! "password" <> formValues !! "confirmPassword" /\
  Zod.safeParse (AuthCard.resolverSchema AuthCard.SingleCard false)
    (Zod.Str <$> formValues) = [] /\
  Resolvers.errors
    (Resolvers.zodResolver (AuthCard.resolverSchema AuthCard.SingleCard false) formValues)
    !! "confirmPassword" = None.
Proof.
  intros formValues. split; [|split].
  - vm_compute. discriminate.
  - vm_compute. reflexivity.
  - vm_compute. reflexivity.
Qed.

(** C2, amended. For every sign-up input whose password and
    confirmation differ (and, in the version with the single schema, are
    both non-empty) validation reports "Passwords do not match" under
    [confirmPassword]; the [password] field carries no error once it
    meets its own minimum length. *)
Theorem mismatch_reported_on_confirmPassword :
  (forall (formValues : gmap string string) p c,
     dom formValues = dom (AuthCard.blank AuthCard.SplitCard) ->
     formValues !! "password" = Some p ->
     formValues !! "confirmPassword" = Some c ->
     p <> c ->
     let reported :=
       Resolvers.errors
         (Resolvers.zodResolver (AuthCard.resolverSchema AuthCard.SplitCard false) formValues) in
     reported !! "confirmPassword" = Some "Passwords do not match" /\
     ((8 <= String.length p)%nat -> reported !! "password" = None)) /\
  (forall (formValues : gmap string string) p c,
     dom formValues = dom (AuthCard.blank AuthCard.SingleCard) ->
     formValues !! "password" = Some p ->
     formValues !! "confirmPassword" = Some c ->
     p <> c -> p <> "" -> c <> "" ->
     let reported :=
       Resolvers.errors
         (Resolvers.zodResolver (AuthCard.resolverSchema AuthCard.SingleCard false) formValues) in
     reported !! "confirmPassword" = Some "Passwords do not match" /\
     ((6 <= String.length p)%nat -> reported !! "password" = None)).
Proof.
  split.
  - intros formValues p c Hdom Hp Hc Hne reported.
    destruct (dom_lookup _ _ "email" Hdom) as [e He]; [vm_compute; eauto|].
    destruct (dom_lookup _ _ "phoneNumber" Hdom) as [ph Hph]; [vm_compute; eauto|].
    destruct (dom_lookup _ _ "firstName" Hdom) as [f Hf]; [vm_compute; eauto|].
    destruct (dom_lookup _ _ "lastName" Hdom) as [l Hl]; [vm_compute; eauto|].
    destruct (signup_mismatch formValues e ph f l p c He Hph Hf Hl Hp Hc Hne)
      as [Hconfirm Hpassword].
    split.
    + apply (errors_at _ _ _ _ Hconfirm).
    + intros Hlen. apply no_error_at. apply Hpassword. exact Hlen.
  - intros formValues p c Hdom Hp Hc Hne Hpne Hcne reported.
    destruct (dom_lookup _ _ "name" Hdom) as [n Hn]; [vm_compute; eauto|].
    destruct (dom_lookup _ _ "email" Hdom) as [e He]; [vm_compute; eauto|].
    destruct (auth_mismatch formValues n e p c Hn He Hp Hc Hne Hpne Hcne)
      as [Hconfirm Hpassword].
    split.
    + apply (errors_at _ _ _ _ Hconfirm).
    + intros Hlen. apply no_error_at. apply Hpassword. exact Hlen.
Qed.

Lemma mismatch_reported_on_confirmPassword_witness :
  let split : gmap string string :=
    {[ "email" := "a@b.com"; "phoneNumber" := "0241234567"; "firstName" := "Ama";
       "lastName" := "Mensah"; "password" := "abcdefgh"; "confirmPassword" := "abcdefgx" ]} in
  let single : gmap string string :=
    {[ "name" := "Ama Mensah"; "email" := "a@b.com"; "password" := "abcdefgh";
       "confirmPassword" := "abcdefgx" ]} in
  (Resolvers.errors
     (Resolvers.zodResolver (AuthCard.resolverSchema AuthCard.SplitCard false) split)
     !! "confirmPassword" = Some "Passwords do not match" /\
   Resolvers.errors
     (Resolvers.zodResolver (AuthCard.resolverSchema AuthCard.SplitCard false) split)
     !! "password" = None) /\
  (Resolvers.errors
     (Resolvers.zodResolver (AuthCard.resolverSchema AuthCard.SingleCard false) single)
     !! "confirmPassword" = Some "Passwords do not match" /\
   Resolvers.errors
     (Resolvers.zodResolver (AuthCard.resolverSchema AuthCard.SingleCard false) single)
     !! "password" = None).
Proof.
  intros split single. split.
  - destruct (proj1 mismatch_reported_on_confirmPassword split "abcdefgh" "abcdefgx")
      as [Hconfirm Hpassword].
    + vm_compute. reflexivity.
    + vm_compute. reflexivity.
    + vm_compute. reflexivity.
    + discriminate.
    + split; [exact Hconfirm|]. apply Hpassword. vm_compute. lia.
  - destruct (proj2 mismatch_reported_on_confirmPassword single "abcdefgh" "abcdefgx")
      as [Hconfirm Hpassword].
    + vm_compute. reflexivity.
    + vm_compute. reflexivity.
    + vm_compute. reflexivity.
    + discriminate.
    + discriminate.
    + discriminate.
    + split; [exact Hconfirm|]. apply Hpassword. vm_compute. lia.
Defined.

(** ** Submission and mode switch *)

Section CardFacts.
Import AuthCard.

Variable v : Variant.

Lemma filter_none_due (now : nat) (pending : list (nat * callback)) :
  Forall (fun t => now < t.1)%nat pending ->
  filter (fun t => t.1 <= now)%nat pending = [] /\
  filter (fun t => now < t.1)%nat pending = pending.
Proof.
  induction 1 as [|t rest Ht _ [IHdue IHrest]]; [done|]. split.
  - rewrite filter_cons_False by lia. exact IHdue.
  - rewrite filter_cons_True by exact Ht. f_equal. exact IHrest.
Qed.

Lemma setClock_same st : setClock (clock st) (timers st) st = st.
Proof. destruct st; reflexivity. Qed.

Lemma tick_quiet st :
  Forall (fun t => S (clock st) < t.1)%nat (timers st) ->
  tick v st = setClock (S (clock st)) (timers st) st.
Proof.
  intros Hlater. unfold tick.
  destruct (filter_none_due _ _ Hlater) as [-> ->]. reflexivity.
Qed.

(** While no callback is due, time passing changes the clock only. *)
Lemma elapse_quiet k : forall st,
  Forall (fun t => clock st + k < t.1)%nat (timers st) ->
  elapse v k st = setClock (clock st + k) (timers st) st.
Proof.
  induction k as [|k IH]; intros st Hlater.
  - cbn. rewrite Nat.add_0_r. symmetry. apply setClock_same.
  - unfold elapse in *. rewrite Nat.iter_succ, IH.
    + rewrite tick_quiet; cbn [clock timers setClock].
      * unfold setClock; cbn. f_equal. lia.
      * eapply Forall_impl; [exact Hlater|]. cbn. intros; lia.
    + eapply Forall_impl; [exact Hlater|]. cbn. intros; lia.
Qed.

Lemma tick_single st cb :
  timers st = [(S (clock st), cb)] ->
  tick v st = call v cb (setClock (S (clock st)) [] st).
Proof.
  intros Htimers. unfold tick. rewrite Htimers.
  rewrite filter_cons_True by (cbn; lia).
  rewrite (filter_cons_False (fun t => S (clock st) < t.1)%nat) by (cbn; lia).
  reflexivity.
Qed.

(** A lone callback runs exactly when its delay has passed. *)
Lemma elapse_single st cb k :
  timers st = [(clock st + S k, cb)]%nat ->
  elapse v (S k) st = call v cb (setClock (clock st + S k) [] st).
Proof.
  intros Htimers. unfold elapse. rewrite Nat.iter_succ.
  fold (elapse v k st). rewrite elapse_quiet.
  - rewrite (tick_single _ cb); cbn [clock timers setClock].
    + unfold setClock; cbn. do 2 f_equal. lia.
    + rewrite Htimers. do 2 f_equal. lia.
  - rewrite Htimers. repeat constructor. cbn. lia.
Qed.

Lemma elapse_add a b st : elapse v (a + b) st = elapse v b (elapse v a st).
Proof. unfold elapse. rewrite Nat.add_comm. apply Nat.iter_add. Qed.


Lemma elapse_quiet_state k st :
  Forall (fun t => clock st + k < t.1)%nat (timers st) ->
  status (elapse v k st) = status st /\
  isLogin (elapse v k st) = isLogin st /\
  submitting (elapse v k st) = submitting st /\
  form (elapse v k st) = form st /\
  disabled v (elapse v k st) = disabled v st.
Proof. intros Hlater. rewrite elapse_quiet by exact Hlater. repeat split. Qed.

Lemma accepted_state wasLogin data st :
  let st' := call v (accepted wasLogin data) st in
  status st' = Success /\
  form st' = HookForm.useForm (blank v) /\
  clock st' = clock st /\
  timers st' = timers st ++ [(clock st + 2000, successShown)]%nat.
Proof. cbn [call]. destruct (logOnAccept v); repeat split. Qed.

Lemma successShown_state st :
  submitting st = false ->
  let st' := call v successShown st in
  status st' = Idle /\ form st' = form st /\ clock st' = clock st /\
  timers st' = timers st.
Proof. intros Hsub. cbn [call]. unfold status. cbn. rewrite Hsub. repeat split. Qed.

(** What [Submit] does to a valid form that is not being submitted. *)
Lemma submit_state st :
  submitting st = false -> isValid v st = true ->
  let st' := step v Submit st in
  submitting st' = true /\
  HookForm.values (form st') = HookForm.values (form st) /\
  clock st' = clock st /\
  exists data, timers st' = timers st ++ [(clock st + 800, accepted (isLogin st) data)]%nat.
Proof.
  intros Hsub Hvalid. cbn [step]. unfold disabled. rewrite Hvalid, Hsub.
  cbn [negb orb]. unfold HookForm.handleSubmit. cbn [fst snd].
  unfold isValid, HookForm.isValid in Hvalid. rewrite Hvalid.
  unfold onSubmit. destruct (logOnSubmit v); cbn; eauto.
Qed.

Lemma elapse_to_accepted st wasLogin data k :
  timers st = [(clock st + S k, accepted wasLogin data)]%nat ->
  status (elapse v (S k) st) = Success /\
  form (elapse v (S k) st) = HookForm.useForm (blank v) /\
  timers (elapse v (S k) st) = [(clock (elapse v (S k) st) + 2000, successShown)]%nat.
Proof.
  intros Htimers. rewrite (elapse_single st _ k Htimers).
  destruct (accepted_state wasLogin data (setClock (clock st + S k) [] st))
    as (Hst & Hform & Hclock & Hpending).
  rewrite Hst, Hform, Hpending, Hclock. repeat split.
Qed.

Lemma elapse_to_shown st k :
  timers st = [(clock st + S k, successShown)]%nat ->
  submitting st = false ->
  status (elapse v (S k) st) = Idle /\
  form (elapse v (S k) st) = form st /\
  timers (elapse v (S k) st) = [].
Proof.
  intros Htimers Hsub. rewrite (elapse_single st _ k Htimers).
  destruct (successShown_state (setClock (clock st + S k) [] st) Hsub)
    as (Hst & Hform & _ & Hpending).
  rewrite Hst, Hform, Hpending. repeat split.
Qed.

Lemma not_submitting st : status st = Success -> submitting st = false.
Proof. unfold status. destruct (submitting st); [discriminate | reflexivity]. Qed.

(** The course of an accepted submission when nothing else happens:
    800 units of "Processing..." with the values untouched, then 2000
    units of "Success!" with the form reset, then idle. *)
Lemma submission_course st :
  submitting st = false -> isValid v st = true -> timers st = [] ->
  (forall k, (k < 800)%nat ->
     status (elapse v k (step v Submit st)) = Submitting /\
     disabled v (elapse v k (step v Submit st)) = true /\
     HookForm.values (form (elapse v k (step v Submit st))) = HookForm.values (form st)) /\
  (forall k, (800 <= k < 2800)%nat ->
     status (elapse v k (step v Submit st)) = Success /\
     form (elapse v k (step v Submit st)) = HookForm.useForm (blank v)) /\
  (forall k, (2800 <= k)%nat ->
     status (elapse v k (step v Submit st)) = Idle /\
     form (elapse v k (step v Submit st)) = HookForm.useForm (blank v)).
Proof.
  intros Hsub Hvalid Htimers.
  destruct (submit_state st Hsub Hvalid) as (Hsub0 & Hvals0 & Hclock0 & data & Htimers0).
  remember (step v Submit st) as submitted eqn:Hsubmitted. clear Hsubmitted.
  rewrite Htimers in Htimers0. cbn [app] in Htimers0. rewrite <- Hclock0 in Htimers0.
  destruct (elapse_to_accepted submitted _ _ 799 Htimers0) as (Hst1 & Hform1 & Htimers1).
  assert (forall j, elapse v (800 + j) submitted = elapse v j (elapse v 800 submitted))
    as Hlater by (intros j; apply elapse_add).
  remember (elapse v 800 submitted) as accepting eqn:Haccepting. clear Haccepting.
  destruct (elapse_to_shown accepting 1999 Htimers1 (not_submitting _ Hst1))
    as (Hst2 & Hform2 & Htimers2).
  assert (forall j, elapse v (2000 + j) accepting = elapse v j (elapse v 2000 accepting))
    as Hlatest by (intros j; apply elapse_add).
  remember (elapse v 2000 accepting) as shown eqn:Hshown. clear Hshown.
  split; [|split].
  - intros k Hk.
    destruct (elapse_quiet_state k submitted) as (Hst & _ & _ & Hform & Hdis).
    { rewrite Htimers0. repeat constructor. cbn. lia. }
    rewrite Hst, Hform, Hdis. unfold status, disabled. rewrite Hsub0.
    split; [reflexivity|]. split; [apply orb_true_r | exact Hvals0].
  - intros k Hk. replace k with (800 + (k - 800))%nat by lia. rewrite Hlater.
    destruct (elapse_quiet_state (k - 800) accepting) as (Hst & _ & _ & Hform & _).
    { rewrite Htimers1. repeat constructor. cbn. lia. }
    rewrite Hst, Hform. split; assumption.
  - intros k Hk. replace k with (800 + (2000 + (k - 2800)))%nat by lia.
    rewrite Hlater, Hlatest.
    destruct (elapse_quiet_state (k - 2800) shown) as (Hst & _ & _ & Hform & _).
    { rewrite Htimers2. constructor. }
    rewrite Hst, Hform, Hform2. split; assumption.
Qed.

End CardFacts.


Section CardInvariants.
Import AuthCard.

Variable v : Variant.

Lemma reachable_run evs : reachable v (run v evs).
Proof.
  unfold run. generalize (reachable_mount v). generalize (mount v).
  induction evs as [|ev evs IH]; intros st Hst; cbn [fold_left].
  - exact Hst.
  - apply IH. constructor. exact Hst.
Qed.

(** A property that every callback and the clock keep is kept by the
    passing of time. *)
Lemma tick_keeps (P : State -> Prop) :
  (forall cb st, P st -> P (call v cb st)) ->
  (forall now pending st, P st -> P (setClock now pending st)) ->
  forall st, P st -> P (tick v st).
Proof.
  intros Hcall Hclock st Hst. unfold tick.
  generalize (filter (fun t => t.1 <= S (clock st))%nat (timers st)).
  generalize (Hclock (S (clock st))
    (filter (fun t => S (clock st) < t.1)%nat (timers st)) st Hst).
  generalize (setClock (S (clock st))
    (filter (fun t => S (clock st) < t.1)%nat (timers st)) st).
  intros s Hs due. revert s Hs.
  induction due as [|t due IH]; intros s Hs; cbn [fold_left]; auto.
Qed.

Hypothesis toggle_blank : toggleReset v = None \/ toggleReset v = Some (blank v).

(** Every [reset] of the card is to the empty strings, so the defaults
    of the form never change. *)
Lemma defaults_stay_blank st :
  reachable v st -> HookForm.defaultValues (form st) = blank v.
Proof using toggle_blank.
  induction 1 as [|ev st _ IH]; [reflexivity|].
  destruct ev as [name value| | |]; cbn [step].
  - case_bool_decide; [|exact IH]. exact IH.
  - destruct (disabled v st); [exact IH|].
    unfold HookForm.handleSubmit, onSubmit. cbn [fst snd].
    case_bool_decide; destruct (logOnSubmit v); exact IH.
  - unfold toggleAuthMode. cbn.
    destruct toggle_blank as [-> | ->]; [exact IH | reflexivity].
  - apply (tick_keeps (fun s => HookForm.defaultValues (form s) = blank v)); [| |exact IH].
    + intros [wasLogin data|] s Hs; cbn [call]; [|exact Hs].
      destruct (logOnAccept v); reflexivity.
    + intros now pending s Hs. exact Hs.
Qed.

Lemma toggle_resets st :
  reachable v st ->
  isLogin (toggleAuthMode v st) = negb (isLogin st) /\
  form (toggleAuthMode v st) = HookForm.useForm (blank v).
Proof using toggle_blank.
  intros Hst. split; [reflexivity|].
  unfold toggleAuthMode, HookForm.reset, HookForm.useForm. cbn.
  destruct toggle_blank as [-> | ->]; cbn [default];
    rewrite ?(defaults_stay_blank st Hst); reflexivity.
Qed.

End CardInvariants.

Section BlankForms.
Import AuthCard.

Lemma blank_is_empty v :
  v = SplitCard \/ v = SingleCard ->
  map_Forall (fun _ x => x = "") (blank v) /\
  (forall name, name ∈ inputs v true \/ name ∈ inputs v false ->
                blank v !! name = Some "").
Proof.
  intros Hv. split.
  - destruct Hv as [-> | ->]; cbn [blank SplitCard SingleCard];
      repeat (apply map_Forall_insert_2; [reflexivity|]); apply map_Forall_empty.
  - intros name Hname.
    destruct Hv as [-> | ->]; destruct Hname as [Hname | Hname];
      cbn [inputs SplitCard SingleCard] in Hname;
      repeat (apply elem_of_cons in Hname as [-> | Hname]; [vm_compute; reflexivity|]);
      apply elem_of_nil in Hname; contradiction.
Qed.

Lemma toggle_to_blank v :
  v = SplitCard \/ v = SingleCard ->
  toggleReset v = None \/ toggleReset v = Some (blank v).
Proof. intros [-> | ->]; [right | left]; reflexivity. Qed.

End BlankForms.

(** C6. Toggling the mode, from any state the card can be in, leaves
    every field value the empty string and the error set empty; nothing
    typed before the switch is carried over. *)
Theorem mode_switch_clears_form (v : AuthCard.Variant) (st : AuthCard.State) :
  v = AuthCard.SplitCard \/ v = AuthCard.SingleCard ->
  AuthCard.reachable v st ->
  AuthCard.isLogin (AuthCard.toggleAuthMode v st) = negb (AuthCard.isLogin st) /\
  HookForm.errors (AuthCard.form (AuthCard.toggleAuthMode v st)) = ∅ /\
  (forall name, name ∈ AuthCard.inputs v true \/ name ∈ AuthCard.inputs v false ->
     HookForm.values (AuthCard.form (AuthCard.toggleAuthMode v st)) !! name = Some "") /\
  (forall name x,
     HookForm.values (AuthCard.form (AuthCard.toggleAuthMode v st)) !! name = Some x ->
     x = "").
Proof.
  intros Hv Hst.
  destruct (toggle_resets v (toggle_to_blank v Hv) st Hst) as [Hmode Hform].
  destruct (blank_is_empty v Hv) as [Hall Hinputs].
  rewrite Hform. cbn [HookForm.useForm HookForm.values HookForm.errors].
  split; [exact Hmode|]. split; [reflexivity|]. split; [exact Hinputs|].
  intros name x Hx. exact (Hall name x Hx).
Qed.

Lemma mode_switch_clears_form_witness :
  let st := AuthCard.step AuthCard.SingleCard (AuthCard.Input "password" "abcdefgh")
              (AuthCard.step AuthCard.SingleCard (AuthCard.Input "email" "a@b.com")
                 (AuthCard.mount AuthCard.SingleCard)) in
  HookForm.values (AuthCard.form st) !! "email" = Some "a@b.com" /\
  HookForm.values (AuthCard.form (AuthCard.toggleAuthMode AuthCard.SingleCard st))
    !! "email" = Some "".
Proof.
  intros st. split; [vm_compute; reflexivity|].
  refine (proj1 (proj2 (proj2 (mode_switch_clears_form AuthCard.SingleCard st _ _))) "email" _).
  - right. reflexivity.
  - do 2 constructor. constructor.
  - left. cbn. apply list_elem_of_here.
Defined.

Section SingleCardSignIn.
Import AuthCard.

Lemma sign_in_name_blank st :
  reachable SingleCard st ->
  isLogin st = true -> HookForm.values (form st) !! "name" = Some "".
Proof.
  induction 1 as [|ev st Hreach IH]; [reflexivity|].
  destruct ev as [name value| | |]; cbn [step].
  - case_bool_decide as Hname; [|exact IH]. cbn. intros Hlogin.
    rewrite Hlogin in Hname. cbn [inputs SingleCard] in Hname.
    rewrite lookup_insert_ne; [exact (IH Hlogin)|].
    intros ->. apply elem_of_cons in Hname as [[=] | Hname].
    apply elem_of_cons in Hname as [[=] | Hname].
    apply elem_of_nil in Hname. contradiction.
  - destruct (disabled SingleCard st); [exact IH|].
    unfold HookForm.handleSubmit. cbn [fst snd].
    case_bool_decide; exact IH.
  - intros _. cbn.
    rewrite (defaults_stay_blank SingleCard (or_introl eq_refl) st Hreach).
    reflexivity.
  - apply (tick_keeps SingleCard
             (fun s => isLogin s = true -> HookForm.values (form s) !! "name" = Some ""));
      [| |exact IH].
    + intros [wasLogin data|] s Hs; cbn [call]; [|exact Hs]. intros _. reflexivity.
    + intros now pending s Hs. exact Hs.
Qed.

(** The single schema never accepts a sign-in: the hidden name field
    keeps its empty default and fails its [min(1)]. *)
Lemma single_card_sign_in_never_valid st :
  reachable SingleCard st -> isLogin st = true ->
  isValid SingleCard st = false /\ step SingleCard Submit st = st.
Proof.
  intros Hreach Hlogin.
  assert (isValid SingleCard st = false) as Hinvalid.
  { apply invalid_with_error with (name := "name") (m := "Name is required").
    unfold resolver. cbn [resolverSchema SingleCard].
    apply (errors_at _ _ _ _ (auth_blank_name _ (sign_in_name_blank st Hreach Hlogin))). }
  split; [exact Hinvalid|].
  cbn [step]. unfold disabled. rewrite Hinvalid. reflexivity.
Qed.

End SingleCardSignIn.

(** C1, as stated, fails: the submit handler leaves the field values
    alone. A valid sign-up form still holds what was typed when the
    status becomes submitting, and up to the last unit before the delay
    has passed. *)
Lemma values_kept_while_submitting :
  let st := AuthCard.run AuthCard.SplitCard [
    AuthCard.Toggle;
    AuthCard.Input "firstName" "Ama"; AuthCard.Input "lastName" "Mensah";
    AuthCard.Input "email" "a@b.com"; AuthCard.Input "phoneNumber" "0241234567";
    AuthCard.Input "password" "abcdefgh"; AuthCard.Input "confirmPassword" "abcdefgh"] in
  let submitted := AuthCard.step AuthCard.SplitCard AuthCard.Submit st in
  AuthCard.isLogin st = false /\
  AuthCard.status st = AuthCard.Idle /\
  AuthCard.isValid AuthCard.SplitCard st = true /\
  AuthCard.status submitted = AuthCard.Submitting /\
  HookForm.values (AuthCard.form submitted) !! "email" = Some "a@b.com" /\
  AuthCard.status (AuthCard.elapse AuthCard.SplitCard 799 submitted) = AuthCard.Submitting /\
  HookForm.values (AuthCard.form (AuthCard.elapse AuthCard.SplitCard 799 submitted))
    !! "password" = Some "abcdefgh".
Proof. vm_compute. repeat split. Qed.

(** C1, amended. When the submit handler runs on a schema-valid
    sign-up form that is idle with no callback pending, and nothing else
    happens: the status is submitting for the first 800 units, with the
    submit control disabled and the field values as typed; it is success
    for the next 2000 units and idle from then on, and from the moment
    success is entered every field value is the empty string. *)
Theorem accepted_submission_course (v : AuthCard.Variant) (st : AuthCard.State) :
  v = AuthCard.SplitCard \/ v = AuthCard.SingleCard ->
  AuthCard.isLogin st = false ->
  AuthCard.status st = AuthCard.Idle ->
  AuthCard.timers st = [] ->
  AuthCard.isValid v st = true ->
  (forall k, (k < 800)%nat ->
     AuthCard.status (AuthCard.elapse v k (AuthCard.step v AuthCard.Submit st))
       = AuthCard.Submitting /\
     AuthCard.disabled v (AuthCard.elapse v k (AuthCard.step v AuthCard.Submit st)) = true /\
     HookForm.values (AuthCard.form (AuthCard.elapse v k (AuthCard.step v AuthCard.Submit st)))
       = HookForm.values (AuthCard.form st)) /\
  (forall k, (800 <= k < 2800)%nat ->
     AuthCard.status (AuthCard.elapse v k (AuthCard.step v AuthCard.Submit st))
       = AuthCard.Success /\
     forall name x,
       HookForm.values (AuthCard.form (AuthCard.elapse v k (AuthCard.step v AuthCard.Submit st)))
         !! name = Some x -> x = "") /\
  (forall k, (2800 <= k)%nat ->
     AuthCard.status (AuthCard.elapse v k (AuthCard.step v AuthCard.Submit st))
       = AuthCard.Idle /\
     forall name x,
       HookForm.values (AuthCard.form (AuthCard.elapse v k (AuthCard.step v AuthCard.Submit st)))
         !! name = Some x -> x = "").
Proof.
  intros Hv _ Hidle Htimers Hvalid.
  assert (AuthCard.submitting st = false) as Hsub.
  { unfold AuthCard.status in Hidle. destruct (AuthCard.submitting st); [discriminate | reflexivity]. }
  destruct (submission_course v st Hsub Hvalid Htimers) as (Hfirst & Hthen & Hlast).
  destruct (blank_is_empty v Hv) as [Hall _].
  split; [exact Hfirst|]. split.
  - intros k Hk. destruct (Hthen k Hk) as [Hst Hform]. split; [exact Hst|].
    rewrite Hform. exact Hall.
  - intros k Hk. destruct (Hlast k Hk) as [Hst Hform]. split; [exact Hst|].
    rewrite Hform. exact Hall.
Qed.

Lemma accepted_submission_course_witness :
  let st := AuthCard.run AuthCard.SingleCard [
    AuthCard.Toggle;
    AuthCard.Input "name" "Ama Mensah"; AuthCard.Input "email" "a@b.com";
    AuthCard.Input "password" "abcdefgh"; AuthCard.Input "confirmPassword" "abcdefgh"] in
  AuthCard.status
    (AuthCard.elapse AuthCard.SingleCard 800
       (AuthCard.step AuthCard.SingleCard AuthCard.Submit st)) = AuthCard.Success.
Proof.
  intros st.
  refine (proj1 (proj1 (proj2 (accepted_submission_course AuthCard.SingleCard st _ _ _ _ _))
                   800%nat _)).
  - right. reflexivity.
  - reflexivity.
  - reflexivity.
  - reflexivity.
  - vm_compute. reflexivity.
  - lia.
Defined.

(** ** Routing *)

(** C10. The root path redirects to [/home]: the route table answers
    [/] with a navigation to [/home], so a visit of [/] ends on the Home
    page at [/home], the same view a visit of [/home] shows. *)
Theorem root_redirects_to_home :
  Router.matchRoutes "/" = Some (Router.Navigate "/home") /\
  Router.visit "/" = Router.Displays "/home" "Home" /\
  Router.visit "/" = Router.visit "/home".
Proof. repeat split. Qed.

(** * Further properties *)

(** ** Carousel runs *)

Section CarouselClosedForm.
Import Js Slides SlideText.
Local Open Scope Z_scope.

Variable deck : list Slide.
Hypothesis deck_not_empty : deck <> [].

Lemma deck_size : 1 <= Z.of_nat (length deck).
Proof using deck_not_empty. destruct deck; [done | cbn [length]; lia]. Qed.

Lemma updater_shift ev i :
  0 <= i < Z.of_nat (length deck) ->
  updater deck ev (Int i) = Int ((i + shift ev) mod Z.of_nat (length deck)).
Proof using deck_not_empty.
  intros Hi. pose proof deck_size as HN.
  destruct ev; cbn [updater shift]; unfold totalSlides.
  - apply nextSlide_mod; assumption.
  - apply nextSlide_mod; assumption.
  - rewrite prevSlide_mod by assumption. f_equal.
    replace (i - 1 + Z.of_nat (length deck)) with (i + -1 + 1 * Z.of_nat (length deck)) by lia.
    apply Z_mod_plus_full.
Qed.

Lemma handle_shift ev c i :
  currentSlide c = Int i -> 0 <= i < Z.of_nat (length deck) ->
  handle deck ev c =
  Normal {| currentSlide := Int ((i + shift ev) mod Z.of_nat (length deck));
            interval := interval c |}.
Proof using deck_not_empty.
  intros Hc Hi. unfold handle. rewrite Hc, updater_shift by exact Hi.
  destruct (render_in_range deck (Int ((i + shift ev) mod Z.of_nat (length deck))))
    as [view ->]; [|reflexivity].
  cbn [in_range]. apply Z.mod_pos_bound. pose proof deck_size. lia.
Qed.

Lemma run_from_closed_form evs : forall c i evaluated,
  currentSlide c = Int i -> 0 <= i < Z.of_nat (length deck) ->
  (run_from deck (Normal c) evaluated evs).1 =
  Normal {| currentSlide := Int ((i + net evs) mod Z.of_nat (length deck));
            interval := interval c |}.
Proof using deck_not_empty.
  induction evs as [|ev evs IH]; intros c i evaluated Hc Hi; cbn [run_from net fold_right].
  - rewrite Z.add_0_r, Z.mod_small by exact Hi. destruct c; cbn in *. congruence.
  - rewrite (handle_shift ev c i Hc Hi).
    rewrite (IH _ ((i + shift ev) mod Z.of_nat (length deck))); cbn [currentSlide interval].
    + rewrite Zplus_mod_idemp_l. fold (net evs). rewrite Z.add_assoc. reflexivity.
    + reflexivity.
    + apply Z.mod_pos_bound. pose proof deck_size. lia.
Qed.

Lemma run_closed_form evs :
  (run deck evs).1 =
  Normal {| currentSlide := Int (net evs mod Z.of_nat (length deck));
            interval := SLIDE_DURATION |}.
Proof using deck_not_empty.
  unfold run, mount. pose proof deck_size as HN.
  destruct (render_in_range deck (Int 0)) as [view ->]; [cbn; lia|].
  rewrite (run_from_closed_form evs _ 0); [reflexivity | reflexivity | lia].
Qed.

Lemma run_from_dividends evs : forall c i evaluated,
  currentSlide c = Int i -> 0 <= i < Z.of_nat (length deck) ->
  Forall (fun ops => exists a, ops = (Int a, Int (Z.of_nat (length deck))) /\ 0 <= a) evaluated ->
  Forall (fun ops => exists a, ops = (Int a, Int (Z.of_nat (length deck))) /\ 0 <= a)
    (run_from deck (Normal c) evaluated evs).2.
Proof using deck_not_empty.
  induction evs as [|ev evs IH]; intros c i evaluated Hc Hi Hlog; cbn [run_from].
  - exact Hlog.
  - rewrite (handle_shift ev c i Hc Hi).
    apply (IH _ ((i + shift ev) mod Z.of_nat (length deck))).
    + reflexivity.
    + apply Z.mod_pos_bound. pose proof deck_size. lia.
    + constructor; [|exact Hlog]. rewrite Hc.
      destruct ev; cbn [operands add sub]; unfold totalSlides; eexists; (split; [reflexivity|lia]).
Qed.

End CarouselClosedForm.

Lemma net_permutation evs evs' :
  Permutation evs evs' -> SlideText.net evs = SlideText.net evs'.
Proof.
  induction 1 as [|ev l l' _ IH|a b l|l l' l'' _ IH1 _ IH2]; cbn [SlideText.net fold_right].
  - reflexivity.
  - fold (SlideText.net l) (SlideText.net l'). rewrite IH. reflexivity.
  - lia.
  - congruence.
Qed.

(** X1. Over a non-empty slide list the carousel never fails, and after
    any sequence of timer ticks and clicks its index is the number of
    advances minus the number of retreats, modulo the number of slides;
    the slide rendered is the one at that position. *)
Theorem carousel_index_closed_form (deck : list Slides.Slide) (evs : list Slides.Event) :
  deck <> [] ->
  exists data,
    (Slides.run deck evs).1 =
      Js.Normal {| Slides.currentSlide :=
                     Js.Int (SlideText.net evs mod Z.of_nat (length deck));
                   Slides.interval := Slides.SLIDE_DURATION |} /\
    nth_error deck (Z.to_nat (SlideText.net evs mod Z.of_nat (length deck))) = Some data /\
    Slides.render deck (Js.Int (SlideText.net evs mod Z.of_nat (length deck))) =
      Js.Normal {| Slides.currentSlideData := data;
                   Slides.titleWords := Js.split_on " " (Slides.title data) |}.
Proof.
  intros Hdeck.
  assert (0 <= SlideText.net evs mod Z.of_nat (length deck) < Z.of_nat (length deck))%Z as Hrange.
  { apply Z.mod_pos_bound. pose proof (deck_size deck Hdeck). lia. }
  destruct (nth_error deck (Z.to_nat (SlideText.net evs mod Z.of_nat (length deck))))
    as [data|] eqn:Hnth.
  - exists data. split; [apply run_closed_form; exact Hdeck|]. split; [reflexivity|].
    unfold Slides.render, Js.at_index.
    destruct (Z.ltb_spec (SlideText.net evs mod Z.of_nat (length deck)) 0) as [?|_]; [lia|].
    rewrite Hnth. reflexivity.
  - apply nth_error_None in Hnth. lia.
Qed.

Lemma carousel_index_closed_form_witness :
  (Slides.run Slides.slides [Slides.ClickPrev; Slides.Tick; Slides.ClickPrev]).1 =
  Js.Normal {| Slides.currentSlide := Js.Int 3; Slides.interval := 6500 |}.
Proof.
  destruct (carousel_index_closed_form Slides.slides
              [Slides.ClickPrev; Slides.Tick; Slides.ClickPrev]) as (data & Hrun & _).
  - discriminate.
  - exact Hrun.
Defined.

(** X2. The order in which timer ticks and clicks arrive does not
    matter: two runs over the same non-empty slide list whose events are
    a rearrangement of each other end in the same state. *)
Theorem carousel_order_irrelevant (deck : list Slides.Slide) (evs evs' : list Slides.Event) :
  deck <> [] -> Permutation evs evs' ->
  (Slides.run deck evs).1 = (Slides.run deck evs').1.
Proof.
  intros Hdeck Hperm.
  rewrite !run_closed_form by exact Hdeck.
  rewrite (net_permutation evs evs' Hperm). reflexivity.
Qed.

Lemma carousel_order_irrelevant_witness :
  (Slides.run Slides.slides [Slides.Tick; Slides.ClickPrev]).1 =
  (Slides.run Slides.slides [Slides.ClickPrev; Slides.Tick]).1.
Proof.
  apply carousel_order_irrelevant; [discriminate | apply perm_swap].
Defined.

(** X3. In every run over a non-empty slide list, each [%] is evaluated
    with the number of slides as its modulus and a dividend that is not
    negative, so the remainder is the mathematical one. *)
Theorem carousel_dividends_nonnegative (deck : list Slides.Slide) (evs : list Slides.Event) :
  deck <> [] ->
  Forall (fun ops =>
            exists a, ops = (Js.Int a, Js.Int (Z.of_nat (length deck))) /\
                      (0 <= a)%Z /\
                      Js.rem ops.1 ops.2 = Js.Int (a mod Z.of_nat (length deck)))
         (Slides.run deck evs).2.
Proof.
  intros Hdeck. pose proof (deck_size deck Hdeck) as HN.
  assert (Forall (fun ops => exists a,
            ops = (Js.Int a, Js.Int (Z.of_nat (length deck))) /\ (0 <= a)%Z)
            (Slides.run deck evs).2) as Hlog.
  { unfold Slides.run, Slides.mount.
    destruct (render_in_range deck (Js.Int 0)) as [view ->]; [cbn; lia|].
    apply (run_from_dividends deck Hdeck evs _ 0%Z); [reflexivity | lia | constructor]. }
  eapply Forall_impl; [exact Hlog|].
  intros ops (a & -> & Ha). exists a. split; [reflexivity|]. split; [exact Ha|].
  cbn [fst snd Js.rem]. destruct (Z.eqb_spec (Z.of_nat (length deck)) 0) as [?|_]; [lia|].
  f_equal. apply Z.rem_mod_nonneg; lia.
Qed.

Lemma carousel_dividends_nonnegative_witness :
  Forall (fun ops => exists a, ops = (Js.Int a, Js.Int 4) /\ (0 <= a)%Z /\
                               Js.rem ops.1 ops.2 = Js.Int (a mod 4))
         (Slides.run Slides.slides [Slides.ClickPrev; Slides.Tick]).2.
Proof.
  apply (carousel_dividends_nonnegative Slides.slides [Slides.ClickPrev; Slides.Tick]).
  discriminate.
Defined.

Section TitleWords.
Import Js.

Lemma split_on_cons sep s : exists w ws, split_on sep s = w :: ws.
Proof.
  destruct s as [|c rest]; cbn [split_on]; [eauto|].
  destruct (Ascii.eqb c sep); [eauto|].
  destruct (split_on sep rest); eauto.
Qed.

Lemma concat_cons sep w ws :
  String.concat sep (w :: ws) =
  match ws with
  | [] => w
  | _ :: _ => String.append w (String.append sep (String.concat sep ws))
  end.
Proof. destruct ws; reflexivity. Qed.

Lemma concat_split_on sep s :
  String.concat (String sep EmptyString) (split_on sep s) = s.
Proof.
  induction s as [|c rest IH]; cbn [split_on]; [reflexivity|].
  destruct (split_on_cons sep rest) as (w & ws & Hsplit). rewrite Hsplit in IH |- *.
  destruct (Ascii.eqb_spec c sep) as [->|_].
  - rewrite concat_cons, <- IH. reflexivity.
  - rewrite concat_cons in IH |- *. destruct ws as [|w' ws].
    + rewrite IH. reflexivity.
    + rewrite <- IH. reflexivity.
Qed.

End TitleWords.

(** ** The words of a title *)

Section TitleWordsFacts.
Import Js.

Lemma split_on_words sep s :
  Forall (fun w => Words.mentions sep w = false) (split_on sep s).
Proof.
  induction s as [|c rest IH]; cbn [split_on]; [repeat constructor|].
  destruct (Ascii.eqb c sep) eqn:Hc.
  - constructor; [reflexivity | exact IH].
  - destruct (split_on sep rest) as [|w ws]; [repeat constructor; cbn; rewrite Hc; reflexivity|].
    inversion IH as [|? ? Hw Hws]; subst. constructor; [|exact Hws].
    cbn [Words.mentions]. rewrite Hc, Hw. reflexivity.
Qed.

End TitleWordsFacts.

(** X4. The words a slide's title is split into for the animation give
    the title back when joined with single spaces; there is at least one
    word, and no word holds a space (so two spaces in a row give an empty
    word). *)
Theorem title_words_rejoin (deck : list Slides.Slide) (index : Js.number)
    (view : Slides.View) :
  Slides.render deck index = Js.Normal view ->
  String.concat " " (Slides.titleWords view) = Slides.title (Slides.currentSlideData view) /\
  Slides.titleWords view <> [] /\
  Forall (fun w => Words.mentions " " w = false) (Slides.titleWords view).
Proof.
  unfold Slides.render. destruct (Js.at_index deck index) as [data|]; [|discriminate].
  intros [= <-]. cbn [Slides.titleWords Slides.currentSlideData].
  split; [apply concat_split_on|]. split; [|apply split_on_words].
  destruct (split_on_cons " " (Slides.title data)) as (w & ws & ->). discriminate.
Qed.

Lemma title_words_rejoin_witness :
  exists view,
    Slides.render Slides.slides (Js.Int 2) = Js.Normal view /\
    String.concat " " (Slides.titleWords view) = "Boosting Yields Through Hand Pollination".
Proof.
  eexists. split; [reflexivity|].
  refine (proj1 (title_words_rejoin Slides.slides (Js.Int 2) _ _)). reflexivity.
Defined.

(** ** Routes and links *)


(** X6. No link of the site is dead: the target of every entry of both
    navigation bars, of the logo and of the three support cards is
    displayed as a page at that very location. *)
Theorem links_resolve :
  Forall (fun l => exists component,
            Router.visit (Navbar.path l) = Router.Displays (Navbar.path l) component)
         (Navbar.navLinks ++ Navbar.navigationLinks) /\
  Forall (fun target => exists component,
            Router.visit target = Router.Displays target component)
         (Navbar.logoPath :: Navbar.supportPaths).
Proof. split; repeat constructor; eexists; reflexivity. Qed.




(** ** Navigation bar: theme *)

Section NavbarTheme.
Import Navbar NavbarFacts.

Variable ver : Version.

Lemma tick_keeps_bar (P : State -> Prop) :
  (forall st, P st -> P (endAnimation st)) ->
  (forall st now pending,
     P st ->
     P {| isOpen := isOpen st; scrolled := scrolled st; theme := theme st;
          isAnimating := isAnimating st; location := location st; page := page st;
          clock := now; timers := pending |}) ->
  forall st, P st -> P (tick st).
Proof.
  intros Hend Hclock st Hst. unfold tick.
  generalize (filter (fun t => t <= S (clock st))%nat (timers st)).
  generalize (Hclock st (S (clock st))
                (filter (fun t => S (clock st) < t)%nat (timers st)) Hst).
  generalize ({| isOpen := isOpen st; scrolled := scrolled st; theme := theme st;
                 isAnimating := isAnimating st; location := location st; page := page st;
                 clock := S (clock st);
                 timers := filter (fun t => S (clock st) < t)%nat (timers st) |}).
  intros s Hs due. revert s Hs.
  induction due as [|t due IH]; intros s Hs; cbn [fold_left]; auto.
Qed.

Lemma play_keeps (P : State -> Prop) evs :
  (forall ev st, P st -> P (step ver ev st)) ->
  forall st, P st -> P (play ver evs st).
Proof.
  intros Hstep. unfold play.
  induction evs as [|ev evs IH]; intros st Hst; cbn [fold_left]; auto.
Qed.

Lemma dark_class_toggled (s : string) (classes : gset string) :
  "dark" ∈ classToggle "dark" (String.eqb s "dark") classes <-> s = "dark".
Proof.
  unfold classToggle. destruct (String.eqb_spec s "dark") as [Hdark|Hlight].
  - rewrite elem_of_union, elem_of_singleton. tauto.
  - rewrite elem_of_difference, elem_of_singleton. tauto.
Qed.

Lemma other_class_toggled (token : string) (force : bool) (classes : gset string) :
  token <> "dark" -> "dark" ∈ classToggle token force classes <-> "dark" ∈ classes.
Proof.
  intros Hne. unfold classToggle. destruct force.
  - rewrite elem_of_union, elem_of_singleton. split; [intros [?|?]; [congruence | assumption] | tauto].
  - rewrite elem_of_difference, elem_of_singleton. split; [tauto | intros ?; split; [assumption | congruence]].
Qed.

Lemma mount_consistent pathname p0 : consistent p0 (mount pathname p0).
Proof.
  unfold consistent, mount. cbn [page theme withClasses classList localStorage prefersDark].
  split; [|split; [reflexivity | right; split; reflexivity]].
  apply dark_class_toggled.
Qed.

Lemma toggle_consistent p0 st : consistent p0 st -> consistent p0 (toggleTheme ver st).
Proof.
  intros Hst. pose proof Hst as (Hclass & Hpref & Hstore). unfold toggleTheme.
  assert ((if String.eqb (theme st) "dark" then "light" else "dark") <> "") as Hnonempty
    by (destruct (String.eqb (theme st) "dark"); discriminate).
  destruct ver; [|destruct (isAnimating st); [exact Hst|]];
    unfold consistent; cbn [page theme setItem withClasses classList localStorage prefersDark];
    (split; [apply dark_class_toggled|]);
    (split; [exact Hpref|]);
    left; (split; [apply lookup_insert_eq | exact Hnonempty]).
Qed.

Lemma step_consistent p0 ev st : consistent p0 st -> consistent p0 (step ver ev st).
Proof.
  intros Hst. destruct ev as [scrollY| | |to|]; cbn [step]; try exact Hst.
  - apply toggle_consistent. exact Hst.
  - apply (tick_keeps_bar (consistent p0)); [| |exact Hst].
    + intros s (Hclass & Hpref & Hstore). unfold consistent, endAnimation.
      cbn [page theme withClasses classList localStorage prefersDark].
      split; [|split; assumption].
      rewrite <- Hclass. apply other_class_toggled. discriminate.
    + intros s now pending Hs. exact Hs.
Qed.

Lemma run_consistent pathname p0 evs : consistent p0 (run ver pathname p0 evs).
Proof.
  apply (play_keeps (consistent p0) evs); [apply step_consistent | apply mount_consistent].
Qed.


End NavbarTheme.


Section NavbarStorage.
Import Navbar NavbarFacts.

Variable ver : Version.

Lemma quiet_play evs : forall st,
  Forall (fun ev => isClickTheme ev = false) evs ->
  localStorage (page (play ver evs st)) = localStorage (page st) /\
  theme (play ver evs st) = theme st.
Proof.
  unfold play. induction evs as [|ev evs IH]; intros st Hevs; cbn [fold_left]; [done|].
  inversion Hevs as [|? ? Hev Hrest]; subst.
  destruct (IH (step ver ev st) Hrest) as [-> ->].
  destruct ev as [scrollY| | |to|]; cbn [step page theme]; try done.
  apply (tick_keeps_bar
           (fun s => localStorage (page s) = localStorage (page st) /\ theme s = theme st));
    [intros s Hs; exact Hs | intros s now pending Hs; exact Hs | done].
Qed.

Lemma toggle_written st :
  (isAnimating st = true -> written st) -> written (toggleTheme ver st).
Proof.
  intros Hanimating. unfold toggleTheme.
  assert (written
    {| isOpen := isOpen st; scrolled := scrolled st;
       theme := if String.eqb (theme st) "dark" then "light" else "dark";
       isAnimating := isAnimating st; location := location st;
       page := setItem "theme" (if String.eqb (theme st) "dark" then "light" else "dark")
                 (withClasses
                    (classToggle "dark"
                       (String.eqb (if String.eqb (theme st) "dark" then "light" else "dark")
                          "dark")) (page st));
       clock := clock st; timers := timers st |}) as Hplain.
  { split; cbn [page theme setItem localStorage]; [apply lookup_insert_eq|].
    destruct (String.eqb (theme st) "dark"); auto. }
  destruct ver; [exact Hplain|].
  destruct (isAnimating st); [apply Hanimating; reflexivity|].
  split; cbn [page theme setItem localStorage]; [apply lookup_insert_eq|].
  destruct (String.eqb (theme st) "dark"); auto.
Qed.

Lemma step_written ev st :
  (isAnimating st = true -> written st) ->
  (written st -> written (step ver ev st)) /\
  (isAnimating (step ver ev st) = true -> written (step ver ev st)).
Proof.
  intros Hanimating.
  destruct ev as [scrollY| | |to|]; cbn [step]; try (split; [intros H; exact H | exact Hanimating]).
  - split; intros _; apply toggle_written; exact Hanimating.
  - apply (tick_keeps_bar
             (fun s => (written st -> written s) /\ (isAnimating s = true -> written s))).
    + intros s [Hkeep Hanim]. split; [exact Hkeep | discriminate].
    + intros s now pending Hs. exact Hs.
    + split; [intros H; exact H | exact Hanimating].
Qed.

Lemma play_written evs : forall st,
  (isAnimating st = true -> written st) ->
  (written st \/ Exists (fun ev => isClickTheme ev = true) evs) ->
  written (play ver evs st).
Proof.
  unfold play. induction evs as [|ev evs IH]; intros st Hanimating Hsome; cbn [fold_left].
  - destruct Hsome as [Hst | Hclick]; [exact Hst | inversion Hclick].
  - destruct (step_written ev st Hanimating) as [Hkeep Hanim].
    apply IH; [exact Hanim|].
    destruct Hsome as [Hst | Hclick]; [left; apply Hkeep; exact Hst|].
    inversion Hclick as [? ? Hev | ? ? Hrest]; subst; [|right; exact Hrest].
    left. destruct ev; try discriminate. apply toggle_written. exact Hanimating.
Qed.

End NavbarStorage.

(** X9. The theme preference is written to storage by a switch and by
    nothing else. While the theme button has not been clicked, storage is
    as the page had it and the theme is the stored one or, failing that,
    the system's; once it has been clicked, the stored value is the bar's
    current theme, ["dark"] or ["light"]. *)
Theorem preference_written_by_switch (ver : Navbar.Version) (pathname : string)
    (p0 : Navbar.Page) (evs : list Navbar.Event) :
  (Forall (fun ev => NavbarFacts.isClickTheme ev = false) evs ->
   Navbar.localStorage (Navbar.page (Navbar.run ver pathname p0 evs)) = Navbar.localStorage p0 /\
   Navbar.theme (Navbar.run ver pathname p0 evs) = Navbar.initialTheme p0) /\
  (Exists (fun ev => NavbarFacts.isClickTheme ev = true) evs ->
   Navbar.localStorage (Navbar.page (Navbar.run ver pathname p0 evs)) !! "theme" =
     Some (Navbar.theme (Navbar.run ver pathname p0 evs)) /\
   (Navbar.theme (Navbar.run ver pathname p0 evs) = "dark" \/
    Navbar.theme (Navbar.run ver pathname p0 evs) = "light")).
Proof.
  split.
  - intros Hquiet. apply (quiet_play ver evs (Navbar.mount pathname p0) Hquiet).
  - intros Hclick.
    apply (play_written ver evs (Navbar.mount pathname p0)); [discriminate | right; exact Hclick].
Qed.

Lemma preference_written_by_switch_witness :
  let p0 := {| Navbar.classList := ∅; Navbar.localStorage := ∅;
               Navbar.prefersDark := true; Navbar.elementIds := [] |} in
  Navbar.localStorage
    (Navbar.page (Navbar.run Navbar.Animated "/home" p0 [Navbar.Scroll 80; Navbar.ClickMenu]))
    = ∅ /\
  Navbar.localStorage
    (Navbar.page (Navbar.run Navbar.Animated "/home" p0 [Navbar.ClickTheme; Navbar.ClickTheme]))
    !! "theme" = Some "light".
Proof.
  intros p0. split.
  - apply (proj1 (preference_written_by_switch Navbar.Animated "/home" p0
                    [Navbar.Scroll 80; Navbar.ClickMenu])).
    repeat constructor.
  - destruct (proj2 (preference_written_by_switch Navbar.Animated "/home" p0
                       [Navbar.ClickTheme; Navbar.ClickTheme])) as [Hstored _].
    + constructor. reflexivity.
    + exact Hstored.
Defined.

Section NavbarSwitch.
Import Navbar NavbarFacts.

Lemma toggle_class_back (classes : gset string) (b : bool) :
  ("dark" ∈ classes <-> b = true) ->
  classToggle "dark" b (classToggle "dark" (negb b) classes) = classes.
Proof.
  intros Hb. apply set_eq. intros x. unfold classToggle. destruct b; cbn [negb].
  - rewrite elem_of_union, elem_of_difference, elem_of_singleton.
    destruct (decide (x = "dark")) as [->|Hx]; [|tauto].
    split; [intros _; apply Hb; reflexivity | tauto].
  - rewrite elem_of_difference, elem_of_union, elem_of_singleton.
    destruct (decide (x = "dark")) as [->|Hx]; [|tauto].
    split; [tauto|]. intros Hin. apply Hb in Hin. discriminate.
Qed.

End NavbarSwitch.

(** X10. In the first version of the bar, once the theme has been
    switched, switching twice more restores everything: the bar's state,
    the classes of the document and the stored preference. *)
Theorem double_switch_restores (pathname : string) (p0 : Navbar.Page)
    (evs : list Navbar.Event) :
  let switched := Navbar.toggleTheme Navbar.Plain (Navbar.run Navbar.Plain pathname p0 evs) in
  Navbar.toggleTheme Navbar.Plain (Navbar.toggleTheme Navbar.Plain switched) = switched.
Proof.
  intros switched.
  pose proof (toggle_consistent Navbar.Plain p0 _ (run_consistent Navbar.Plain pathname p0 evs))
    as (Hclass & _ & _).
  fold switched in Hclass.
  assert (Navbar.theme switched = "dark" \/ Navbar.theme switched = "light") as Hname.
  { unfold switched. cbn [Navbar.toggleTheme Navbar.theme].
    destruct (String.eqb (Navbar.theme (Navbar.run Navbar.Plain pathname p0 evs)) "dark"); auto. }
  assert (Navbar.localStorage (Navbar.page switched) !! "theme" = Some (Navbar.theme switched))
    as Hstored by apply lookup_insert_eq.
  clearbody switched. destruct switched as [o s t a l [classes storage dark ids] c ts].
  cbn [Navbar.theme Navbar.page Navbar.classList Navbar.localStorage] in *.
  unfold Navbar.toggleTheme, Navbar.setItem, Navbar.withClasses.
  cbn [Navbar.theme Navbar.page Navbar.classList Navbar.localStorage Navbar.isOpen
       Navbar.scrolled Navbar.isAnimating Navbar.location Navbar.clock Navbar.timers
       Navbar.setItem Navbar.withClasses Navbar.prefersDark Navbar.elementIds].
  destruct Hname as [-> | ->]; cbn [String.eqb Ascii.eqb Bool.eqb].
  - do 2 f_equal.
    + apply (toggle_class_back classes true). rewrite Hclass. tauto.
    + rewrite !insert_insert_eq. apply insert_id. exact Hstored.
  - do 2 f_equal.
    + apply (toggle_class_back classes false). rewrite Hclass. split; discriminate.
    + rewrite !insert_insert_eq. apply insert_id. exact Hstored.
Qed.

(** X11. The style element of the second version is injected once:
    injecting again changes nothing, and afterwards an element with its id
    exists. *)
Theorem inject_once (p : Navbar.Page) :
  Navbar.injectThemeStyles (Navbar.injectThemeStyles p) = Navbar.injectThemeStyles p /\
  "theme-transition-style" ∈ Navbar.elementIds (Navbar.injectThemeStyles p) /\
  (length (Navbar.elementIds (Navbar.injectThemeStyles p)) <= S (length (Navbar.elementIds p)))%nat.
Proof.
  assert (forall q, "theme-transition-style" ∈ Navbar.elementIds q ->
                    Navbar.injectThemeStyles q = q) as Hpresent.
  { intros q Hq. unfold Navbar.injectThemeStyles.
    rewrite (bool_decide_eq_true_2 _ Hq). reflexivity. }
  destruct (decide ("theme-transition-style" ∈ Navbar.elementIds p)) as [Hin|Hout].
  - rewrite !(Hpresent p Hin). split; [reflexivity|]. split; [exact Hin | lia].
  - assert ("theme-transition-style" ∈ Navbar.elementIds (Navbar.injectThemeStyles p)) as Hnow.
    { unfold Navbar.injectThemeStyles. rewrite (bool_decide_eq_false_2 _ Hout).
      cbn [Navbar.elementIds]. apply elem_of_app. right. apply list_elem_of_here. }
    split; [apply Hpresent; exact Hnow|]. split; [exact Hnow|].
    unfold Navbar.injectThemeStyles. rewrite (bool_decide_eq_false_2 _ Hout).
    cbn [Navbar.elementIds]. rewrite length_app. cbn. lia.
Qed.

Section NavbarAnimation.
Import Navbar NavbarFacts.

Lemma transition_class_kept (b : bool) (classes : gset string) :
  "theme-transition" ∈ classToggle "dark" b classes <-> "theme-transition" ∈ classes.
Proof.
  unfold classToggle. destruct b.
  - rewrite elem_of_union, elem_of_singleton.
    split; [intros [?|?]; [discriminate | assumption] | tauto].
  - rewrite elem_of_difference, elem_of_singleton.
    split; [tauto | intros ?; split; [assumption | discriminate]].
Qed.

Lemma mount_animation_ok pathname p0 :
  "theme-transition" ∉ classList p0 -> animation_ok (mount pathname p0).
Proof.
  intros Hfresh. unfold animation_ok, mount.
  cbn [isAnimating page withClasses classList timers]. split; [|reflexivity].
  rewrite transition_class_kept. split; [discriminate | contradiction].
Qed.

Lemma tick_waiting st due :
  timers st = [due] -> (S (clock st) < due)%nat ->
  tick st = {| isOpen := isOpen st; scrolled := scrolled st; theme := theme st;
               isAnimating := isAnimating st; location := location st; page := page st;
               clock := S (clock st); timers := [due] |}.
Proof.
  intros Htimers Hlater. unfold tick. rewrite Htimers.
  rewrite filter_cons_False by lia. rewrite filter_cons_True by lia. reflexivity.
Qed.

Lemma tick_ending st due :
  timers st = [due] -> (due <= S (clock st))%nat ->
  tick st = endAnimation
              {| isOpen := isOpen st; scrolled := scrolled st; theme := theme st;
                 isAnimating := isAnimating st; location := location st; page := page st;
                 clock := S (clock st); timers := [] |}.
Proof.
  intros Htimers Hdue. unfold tick. rewrite Htimers.
  rewrite filter_cons_True by lia. rewrite filter_cons_False by lia. reflexivity.
Qed.

Lemma tick_idle st :
  timers st = [] ->
  tick st = {| isOpen := isOpen st; scrolled := scrolled st; theme := theme st;
               isAnimating := isAnimating st; location := location st; page := page st;
               clock := S (clock st); timers := [] |}.
Proof. intros Htimers. unfold tick. rewrite Htimers. reflexivity. Qed.

Lemma step_animation_ok ev st : animation_ok st -> animation_ok (step Animated ev st).
Proof.
  intros Hst. pose proof Hst as [Hclass Htimers].
  destruct ev as [scrollY| | |to|]; cbn [step]; try exact Hst.
  - unfold toggleTheme. destruct (isAnimating st) eqn:Hanimating; [exact Hst|].
    unfold animation_ok, setItem, withClasses.
    cbn [isAnimating page classList timers clock]. split.
    + rewrite transition_class_kept. unfold classToggle.
      rewrite elem_of_union, elem_of_singleton. tauto.
    + exists (clock st + 300)%nat. rewrite Htimers. split; [reflexivity | lia].
  - destruct (isAnimating st) eqn:Hanimating.
    + destruct Htimers as (due & Htimers & Hdue).
      destruct (decide (due <= S (clock st))%nat) as [Hnow | Hlater].
      * rewrite (tick_ending st due Htimers Hnow).
        unfold animation_ok, endAnimation, withClasses.
        cbn [isAnimating page classList timers]. split; [|reflexivity].
        unfold classToggle. rewrite elem_of_difference, elem_of_singleton.
        split; [discriminate | tauto].
      * rewrite (tick_waiting st due Htimers) by lia.
        unfold animation_ok. cbn [isAnimating page timers clock]. rewrite Hanimating.
        split; [exact Hclass|]. exists due. split; [reflexivity | lia].
    + rewrite (tick_idle st Htimers).
      unfold animation_ok. cbn [isAnimating page timers clock]. rewrite Hanimating.
      split; [exact Hclass | reflexivity].
Qed.

Lemma step_animating target left ev st :
  animating target left st ->
  (isWait ev = false -> animating target left (step Animated ev st)) /\
  (isWait ev = true -> (2 <= left)%nat -> animating target (left - 1) (step Animated ev st)) /\
  (isWait ev = true -> left = 1%nat ->
     isAnimating (step Animated ev st) = false /\
     theme (step Animated ev st) = target /\
     timers (step Animated ev st) = [] /\
     "theme-transition" ∉ classList (page (step Animated ev st))).
Proof.
  intros (Hflag & Htimers & Htheme).
  destruct ev as [scrollY| | |to|]; cbn [step isWait];
    (split; [intros Hev | split; [intros Hev Hleft | intros Hev Hleft]]); try discriminate.
  - repeat split; assumption.
  - unfold toggleTheme. rewrite Hflag. repeat split; assumption.
  - repeat split; assumption.
  - repeat split; assumption.
  - rewrite (tick_waiting st _ Htimers) by lia.
    unfold animating. cbn [isAnimating timers clock theme].
    split; [exact Hflag|]. split; [|exact Htheme]. f_equal. lia.
  - subst left. rewrite (tick_ending st _ Htimers) by lia.
    unfold endAnimation, withClasses. cbn [isAnimating timers clock theme page classList].
    split; [reflexivity|]. split; [exact Htheme|]. split; [reflexivity|].
    unfold classToggle. rewrite elem_of_difference, elem_of_singleton. tauto.
Qed.

Lemma play_animating evs : forall target left st,
  animating target left st -> (waits evs < left)%nat ->
  animating target (left - waits evs) (play Animated evs st).
Proof.
  unfold play, waits.
  induction evs as [|ev evs IH]; intros target left st Hst Hleft; cbn [fold_left List.filter].
  - cbn [length]. rewrite Nat.sub_0_r. exact Hst.
  - destruct (step_animating target left ev st Hst) as (Hother & Hwait & _).
    cbn [List.filter] in Hleft. destruct (isWait ev) eqn:Hev; cbn [length] in Hleft |- *.
    + replace (left - S (length (List.filter isWait evs)))%nat
        with (left - 1 - length (List.filter isWait evs))%nat by lia.
      apply IH; [apply Hwait; [reflexivity | lia] | lia].
    + apply IH; [apply Hother; reflexivity | exact Hleft].
Qed.

End NavbarAnimation.

(** X12. In the second version of the bar, mounted on a page without
    the transition class, after any sequence of events the flag
    [isAnimating] is set exactly when the document carries the class
    [theme-transition]; while it is set exactly one timer is pending, due
    within 300 units, and while it is clear none is. *)
Theorem animation_flag_class_timer (pathname : string) (p0 : Navbar.Page)
    (evs : list Navbar.Event) :
  "theme-transition" ∉ Navbar.classList p0 ->
  NavbarFacts.animation_ok (Navbar.run Navbar.Animated pathname p0 evs).
Proof.
  intros Hfresh.
  apply (play_keeps Navbar.Animated NavbarFacts.animation_ok evs).
  - intros ev st. apply step_animation_ok.
  - apply mount_animation_ok. exact Hfresh.
Qed.

Lemma animation_flag_class_timer_witness :
  let p0 := {| Navbar.classList := ∅; Navbar.localStorage := ∅;
               Navbar.prefersDark := false; Navbar.elementIds := [] |} in
  NavbarFacts.animation_ok
    (Navbar.run Navbar.Animated "/home" p0 [Navbar.ClickTheme; Navbar.Wait; Navbar.ClickTheme]).
Proof.
  intros p0. apply animation_flag_class_timer. cbn. apply not_elem_of_empty.
Defined.

(** X13. In the second version of the bar a theme switch started while
    none is under way lasts exactly 300 units whatever else happens:
    through any events that take less than 300 units the flag stays set
    and the theme stays the new one (further clicks are ignored), and the
    unit that completes the 300 clears the flag, the timer and the
    transition class. *)
Theorem switch_lasts_300 (st : Navbar.State) (evs : list Navbar.Event) :
  Navbar.isAnimating st = false -> Navbar.timers st = [] ->
  let target := Navbar.theme (Navbar.toggleTheme Navbar.Animated st) in
  ((NavbarFacts.waits evs < 300)%nat ->
   Navbar.isAnimating (NavbarFacts.play Navbar.Animated evs
                         (Navbar.toggleTheme Navbar.Animated st)) = true /\
   Navbar.theme (NavbarFacts.play Navbar.Animated evs
                   (Navbar.toggleTheme Navbar.Animated st)) = target) /\
  (NavbarFacts.waits evs = 299%nat ->
   let ended := Navbar.step Navbar.Animated Navbar.Wait
                  (NavbarFacts.play Navbar.Animated evs
                     (Navbar.toggleTheme Navbar.Animated st)) in
   Navbar.isAnimating ended = false /\ Navbar.theme ended = target /\
   Navbar.timers ended = [] /\
   "theme-transition" ∉ Navbar.classList (Navbar.page ended)).
Proof.
  intros Hidle Htimers target.
  assert (NavbarFacts.animating target 300 (Navbar.toggleTheme Navbar.Animated st)) as Hstart.
  { unfold target, Navbar.toggleTheme. rewrite Hidle.
    unfold NavbarFacts.animating. cbn [Navbar.isAnimating Navbar.timers Navbar.clock Navbar.theme].
    rewrite Htimers. repeat split. }
  split.
  - intros Hwaits.
    destruct (play_animating evs target 300 _ Hstart Hwaits) as (Hflag & _ & Htheme).
    split; assumption.
  - intros Hwaits ended.
    pose proof (play_animating evs target 300 _ Hstart ltac:(lia)) as Hlast.
    rewrite Hwaits in Hlast.
    destruct (step_animating target (300 - 299) Navbar.Wait _ Hlast) as (_ & _ & Hend).
    apply Hend; reflexivity.
Qed.

Lemma switch_lasts_300_witness :
  let st := Navbar.mount "/home"
              {| Navbar.classList := ∅; Navbar.localStorage := ∅;
                 Navbar.prefersDark := false; Navbar.elementIds := [] |} in
  Navbar.theme (NavbarFacts.play Navbar.Animated [Navbar.ClickTheme; Navbar.Wait; Navbar.ClickMenu]
                  (Navbar.toggleTheme Navbar.Animated st)) = "dark".
Proof.
  intros st.
  destruct (switch_lasts_300 st [Navbar.ClickTheme; Navbar.Wait; Navbar.ClickMenu])
    as [Hduring _]; [reflexivity | reflexivity |].
  destruct Hduring as [_ Htheme]; [cbn; lia | exact Htheme].
Defined.

(** ** Schemas: when a parse is clean *)

Section CleanParse.
Import Zod.

Lemma omap_nil {A B} (f : A -> option B) (l : list A) :
  omap f l = [] <-> Forall (fun x => f x = None) l.
Proof.
  induction l as [|x l IH]; cbn [omap list_omap]; [split; constructor|].
  destruct (f x) eqn:Hx.
  - split; [discriminate | intros H; inversion H; congruence].
  - rewrite IH. split; [intros H; constructor; assumption | intros H; inversion H; assumption].
Qed.

Lemma parse_type_clean t x : (parse_type t x).2 = [] -> (parse_type t x).1 = valid.
Proof.
  induction t as [checks | inner IH]; cbn [parse_type].
  - destruct x as [|s]; cbn [fst snd]; [discriminate|]. intros ->. reflexivity.
  - destruct x as [|s]; [reflexivity | exact IH].
Qed.

Lemma string_clean checks x :
  (parse_type (string_ checks) x).2 = [] <->
  exists s, x = Str s /\ Forall (fun c => run_check s c = None) checks.
Proof.
  cbn [parse_type]. destruct x as [|s]; cbn [snd].
  - split; [discriminate | intros (s & [=] & _)].
  - rewrite omap_nil. split; [eauto | intros (s' & [= <-] & H); exact H].
Qed.

Lemma parse_shape_clean fields data :
  (parse_shape fields data).2 = [] <->
  Forall (fun kt => (parse_type kt.2 (prop data kt.1)).2 = []) fields.
Proof.
  induction fields as [|[key t] fields IH]; cbn [parse_shape fst snd].
  - split; constructor.
  - split.
    + intros H. apply app_eq_nil in H as [Hhere Hthere].
      constructor; [|apply IH; exact Hthere].
      cbn [fst snd]. destruct (parse_type t (prop data key)).2; [reflexivity | discriminate].
    + intros H. inversion H as [|? ? Hhere Hthere]; subst. cbn [fst snd] in Hhere.
      rewrite Hhere, (proj2 IH Hthere). reflexivity.
Qed.

Lemma parse_shape_valid fields data :
  (parse_shape fields data).2 = [] -> (parse_shape fields data).1 = valid.
Proof.
  induction fields as [|[key t] fields IH]; cbn [parse_shape fst snd]; [reflexivity|].
  intros H. apply app_eq_nil in H as [Hhere Hthere].
  rewrite (IH Hthere), parse_type_clean; [reflexivity|].
  destruct (parse_type t (prop data key)).2; [reflexivity | discriminate].
Qed.

(** A parse reports nothing exactly when every field is clean and every
    refinement holds of the parsed object. *)
Lemma safeParse_clean s data :
  safeParse s data = [] <->
  Forall (fun kt => (parse_type kt.2 (prop data kt.1)).2 = []) (shape s) /\
  Forall (fun r => predicate r (output (shape s) data) = true) (refinements s).
Proof.
  unfold safeParse. split.
  - intros H.
    assert ((parse_shape (shape s) data).2 = []) as Hfields.
    { destruct (parse_shape (shape s) data).1; [apply app_eq_nil in H; tauto.. | exact H]. }
    rewrite (parse_shape_valid _ _ Hfields), Hfields in H. cbn [app] in H.
    split; [apply parse_shape_clean; exact Hfields|].
    apply omap_nil in H. eapply Forall_impl; [exact H|].
    intros r. unfold run_refinement. cbn. destruct (predicate r _); [reflexivity | discriminate].
  - intros [Hfields Hrefine]. apply parse_shape_clean in Hfields.
    rewrite (parse_shape_valid _ _ Hfields), Hfields. cbn [app].
    apply omap_nil. eapply Forall_impl; [exact Hrefine|].
    intros r Hr. unfold run_refinement. cbn in Hr |- *. rewrite Hr. reflexivity.
Qed.

Lemma min_passes s n m : run_check s (min n m) = None <-> (n <= String.length s)%nat.
Proof.
  cbn [run_check]. destruct (Nat.ltb_spec (String.length s) n); split; try done; lia.
Qed.

Lemma email_passes s m : run_check s (email m) = None <-> emailRegex s = true.
Proof. cbn [run_check]. destruct (emailRegex s); split; done. Qed.

End CleanParse.

Section SchemaVerdicts.
Import Zod Resolvers AuthCard.

Lemma field_string (vals : gmap string string) key checks :
  (parse_type (string_ checks) (prop (Str <$> vals) key)).2 = [] <->
  exists s, vals !! key = Some s /\ Forall (fun c => run_check s c = None) checks.
Proof.
  rewrite string_clean, prop_form. destruct (vals !! key) as [s|].
  - split; intros (s' & [= <-] & H); eauto.
  - split; intros (s' & [=] & _).
Qed.

Lemma field_optional (vals : gmap string string) key checks :
  (parse_type (optional (string_ checks)) (prop (Str <$> vals) key)).2 = [] <->
  forall s, vals !! key = Some s -> Forall (fun c => run_check s c = None) checks.
Proof.
  rewrite prop_form. destruct (vals !! key) as [s|].
  - change (parse_type (optional (string_ checks)) (Str s))
      with (parse_type (string_ checks) (Str s)).
    rewrite string_clean. split.
    + intros (s' & [= <-] & H) s'' [= <-]. exact H.
    + intros H. eauto.
  - cbn. split; [intros _ s [=] | reflexivity].
Qed.

Lemma login_verdict (vals : gmap string string) :
  safeParse LoginSchema (Str <$> vals) = [] <->
  exists e p, vals !! "email" = Some e /\ emailRegex e = true /\
              vals !! "password" = Some p /\ (8 <= String.length p)%nat.
Proof.
  rewrite safeParse_clean. unfold LoginSchema, object. cbn [shape refinements].
  rewrite !Forall_cons, !Forall_nil. cbn [fst snd].
  rewrite !field_string. split.
  - intros [((e & He & Hmail) & (p & Hp & Hlen) & _) _].
    rewrite Forall_cons, email_passes in Hmail. rewrite Forall_cons, min_passes in Hlen.
    exists e, p. tauto.
  - intros (e & p & He & Hmail & Hp & Hlen). split; [|exact I].
    split; [|split; [|exact I]].
    + exists e. split; [exact He|]. rewrite Forall_cons, email_passes, Forall_nil. tauto.
    + exists p. split; [exact Hp|]. rewrite Forall_cons, min_passes, Forall_nil. tauto.
Qed.

Lemma signup_verdict (vals : gmap string string) :
  safeParse SignupSchema (Str <$> vals) = [] <->
  exists e ph f l p,
    vals !! "email" = Some e /\ emailRegex e = true /\
    vals !! "phoneNumber" = Some ph /\ (10 <= String.length ph)%nat /\
    vals !! "firstName" = Some f /\ (1 <= String.length f)%nat /\
    vals !! "lastName" = Some l /\ (1 <= String.length l)%nat /\
    vals !! "password" = Some p /\ (8 <= String.length p)%nat /\
    vals !! "confirmPassword" = Some p.
Proof.
  rewrite safeParse_clean. unfold SignupSchema, refine, object.
  cbn [shape refinements app predicate].
  rewrite !Forall_cons, !Forall_nil. cbn [fst snd predicate].
  rewrite !prop_output
    by (cbn; repeat first [apply list_elem_of_here | apply list_elem_of_further]).
  rewrite !field_string, !prop_form. split.
  - intros [((e & He & Hmail) & (ph & Hph & Hphone) & (f & Hf & Hfirst) & (l & Hl & Hlast) &
             (p & Hp & Hlen) & (c & Hc & _) & _) [Hsame _]].
    rewrite Forall_cons, email_passes in Hmail.
    rewrite Forall_cons, min_passes in Hphone, Hfirst, Hlast, Hlen.
    rewrite Hp, Hc, strict_eq_Str in Hsame. apply bool_decide_eq_true_1 in Hsame. subst c.
    exists e, ph, f, l, p. tauto.
  - intros (e & ph & f & l & p & He & Hmail & Hph & Hphone & Hf & Hfirst & Hl & Hlast &
            Hp & Hlen & Hc).
    split.
    + repeat split; eexists; (split; [eassumption|]);
        rewrite ?Forall_cons, ?email_passes, ?min_passes, ?Forall_nil; tauto.
    + split; [|exact I]. rewrite Hp, Hc, strict_eq_Str. apply bool_decide_eq_true_2. reflexivity.
Qed.

Lemma auth_verdict (vals : gmap string string) :
  safeParse AuthSchema (Str <$> vals) = [] <->
  (forall n, vals !! "name" = Some n -> (1 <= String.length n)%nat) /\
  exists e p,
    vals !! "email" = Some e /\ emailRegex e = true /\
    vals !! "password" = Some p /\ (6 <= String.length p)%nat /\
    (vals !! "confirmPassword" = None \/ vals !! "confirmPassword" = Some "" \/
     vals !! "confirmPassword" = Some p).
Proof.
  rewrite safeParse_clean. unfold AuthSchema, refine, object.
  cbn [shape refinements app predicate].
  rewrite !Forall_cons, !Forall_nil. cbn [fst snd predicate].
  rewrite !prop_output
    by (cbn; repeat first [apply list_elem_of_here | apply list_elem_of_further]).
  rewrite !field_string, !field_optional, !prop_form. split.
  - intros [(Hname & (e & He & Hmail) & (p & Hp & Hlen) & _ & _) [Hsame _]].
    rewrite Forall_cons, email_passes in Hmail. rewrite Forall_cons, min_passes in Hlen.
    split.
    + intros n Hn. specialize (Hname n Hn). rewrite Forall_cons, min_passes in Hname. tauto.
    + exists e, p. repeat (split; [tauto|]).
      rewrite Hp in Hsame. destruct (vals !! "confirmPassword") as [c|]; [|tauto].
      rewrite strict_eq_Str, !falsy_Str in Hsame.
      destruct (decide (c = "")) as [->|Hc]; [tauto|].
      destruct (decide (p = c)) as [->|Hpc]; [tauto|].
      destruct (decide (p = "")) as [->|Hpe]; [cbn in Hlen; lia|].
      rewrite !bool_decide_eq_false_2 in Hsame by assumption. discriminate.
  - intros (Hname & e & p & He & Hmail & Hp & Hlen & Hconfirm). split.
    + split; [|split; [|split; [|split; [|exact I]]]].
      * intros n Hn. rewrite Forall_cons, min_passes, Forall_nil. split; [auto | exact I].
      * exists e. split; [exact He|]. rewrite Forall_cons, email_passes, Forall_nil. tauto.
      * exists p. split; [exact Hp|]. rewrite Forall_cons, min_passes, Forall_nil. tauto.
      * intros s _. constructor.
    + split; [|exact I]. rewrite Hp.
      destruct Hconfirm as [-> | [-> | ->]]; [reflexivity | reflexivity |].
      rewrite strict_eq_Str, (bool_decide_eq_true_2 _ eq_refl), orb_true_r. reflexivity.
Qed.

End SchemaVerdicts.

(** ** The timer queue of the authentication card *)

Section QueueFacts.
Import AuthCard AuthRuns.

Variable v : Variant.

Lemma Forall_filter_keep {A} (P : A -> Prop) (Q : A -> Prop) `{forall x, Decision (Q x)}
    (l : list A) :
  Forall P l -> Forall P (filter Q l).
Proof.
  induction 1 as [|x l Hx _ IH]; [constructor|].
  destruct (decide (Q x)) as [Hq|Hq].
  - rewrite filter_cons_True by exact Hq. constructor; assumption.
  - rewrite filter_cons_False by exact Hq. exact IH.
Qed.

(** Callbacks that only clear the success flag leave the rest alone. *)
Lemma fold_shown due : forall st,
  Forall (fun t => isAccepted t = false) due ->
  isLogin (fold_left (fun s t => call v t.2 s) due st) = isLogin st /\
  submitting (fold_left (fun s t => call v t.2 s) due st) = submitting st /\
  form (fold_left (fun s t => call v t.2 s) due st) = form st /\
  clock (fold_left (fun s t => call v t.2 s) due st) = clock st /\
  timers (fold_left (fun s t => call v t.2 s) due st) = timers st /\
  console (fold_left (fun s t => call v t.2 s) due st) = console st.
Proof.
  induction due as [|[d cb] due IH]; intros st Hdue; cbn [fold_left snd]; [repeat split|].
  inversion Hdue as [|? ? Hcb Hrest]; subst.
  destruct cb as [wasLogin data|]; [discriminate|].
  destruct (IH (call v successShown st) Hrest) as (-> & -> & -> & -> & -> & ->).
  repeat split.
Qed.

Lemma filter_last_due (now left : nat) cb :
  (now + left <= S now)%nat ->
  filter (fun t : nat * callback => t.1 <= S now)%nat [((now + left)%nat, cb)] =
    [((now + left)%nat, cb)] /\
  filter (fun t : nat * callback => S now < t.1)%nat [((now + left)%nat, cb)] = [].
Proof.
  intros Hdue. split.
  - rewrite filter_cons_True by (cbn; lia). reflexivity.
  - rewrite filter_cons_False by (cbn; lia). reflexivity.
Qed.

Lemma filter_last_pending (now left : nat) cb :
  (S now < now + left)%nat ->
  filter (fun t : nat * callback => t.1 <= S now)%nat [((now + left)%nat, cb)] = [] /\
  filter (fun t : nat * callback => S now < t.1)%nat [((now + left)%nat, cb)] =
    [((now + left)%nat, cb)].
Proof.
  intros Hlater. split.
  - rewrite filter_cons_False by (cbn; lia). reflexivity.
  - rewrite filter_cons_True by (cbn; lia). reflexivity.
Qed.

Lemma step_submitting left ev st :
  submittingFor left st ->
  (isWait ev = false -> submittingFor left (step v ev st)) /\
  (isWait ev = true -> (2 <= left)%nat -> submittingFor (left - 1) (step v ev st)) /\
  (isWait ev = true -> left = 1%nat ->
     status (step v ev st) = Success /\
     form (step v ev st) = HookForm.useForm (blank v) /\
     Forall (fun t => isAccepted t = false) (timers (step v ev st))).
Proof.
  intros (Hsub & shown & wasLogin & data & Htimers & Hshown).
  destruct ev as [name value| | |]; cbn [step isWait];
    (split; [intros Hev | split; [intros Hev Hleft | intros Hev Hleft]]); try discriminate.
  - case_bool_decide; (split; [exact Hsub|]); exists shown, wasLogin, data; split; assumption.
  - unfold disabled. rewrite Hsub, orb_true_r.
    split; [exact Hsub|]. exists shown, wasLogin, data. split; assumption.
  - split; [exact Hsub|]. exists shown, wasLogin, data. split; assumption.
  - unfold tick. rewrite Htimers, !filter_app.
    destruct (filter_last_pending (clock st) left (accepted wasLogin data) ltac:(lia)) as [-> ->].
    rewrite app_nil_r.
    destruct (fold_shown (filter (fun t => t.1 <= S (clock st))%nat shown)
                (setClock (S (clock st))
                   (filter (fun t => S (clock st) < t.1)%nat shown ++
                    [((clock st + left)%nat, accepted wasLogin data)]) st))
      as (_ & Hsub' & _ & Hclock' & Htimers' & _);
      [apply Forall_filter_keep; exact Hshown|].
    split; [rewrite Hsub'; exact Hsub|].
    exists (filter (fun t => S (clock st) < t.1)%nat shown), wasLogin, data.
    rewrite Htimers', Hclock'. cbn [timers clock setClock].
    split; [do 3 f_equal; lia | apply Forall_filter_keep; exact Hshown].
  - subst left. unfold tick. rewrite Htimers, !filter_app.
    destruct (filter_last_due (clock st) 1 (accepted wasLogin data) ltac:(lia)) as [-> ->].
    rewrite app_nil_r, fold_left_app. cbn [fold_left snd].
    destruct (fold_shown (filter (fun t => t.1 <= S (clock st))%nat shown)
                (setClock (S (clock st)) (filter (fun t => S (clock st) < t.1)%nat shown) st))
      as (_ & _ & _ & _ & Htimers' & _);
      [apply Forall_filter_keep; exact Hshown|].
    destruct (accepted_state v wasLogin data
                (fold_left (fun s t => call v t.2 s)
                   (filter (fun t => t.1 <= S (clock st))%nat shown)
                   (setClock (S (clock st))
                      (filter (fun t => S (clock st) < t.1)%nat shown) st)))
      as (Hstatus & Hform & _ & Hpending).
    split; [exact Hstatus|]. split; [exact Hform|].
    rewrite Hpending, Htimers'. cbn [timers setClock].
    apply Forall_app. split; [apply Forall_filter_keep; exact Hshown|].
    repeat constructor.
Qed.

Lemma play_submitting evs : forall left st,
  submittingFor left st -> (waits evs < left)%nat ->
  submittingFor (left - waits evs) (play v evs st).
Proof.
  unfold play, waits.
  induction evs as [|ev evs IH]; intros left st Hst Hleft; cbn [fold_left List.filter].
  - cbn [length]. rewrite Nat.sub_0_r. exact Hst.
  - destruct (step_submitting left ev st Hst) as (Hother & Hwait & _).
    cbn [List.filter] in Hleft. destruct (isWait ev) eqn:Hev; cbn [length] in Hleft |- *.
    + replace (left - S (length (List.filter isWait evs)))%nat
        with (left - 1 - length (List.filter isWait evs))%nat by lia.
      apply IH; [apply Hwait; [reflexivity | lia] | lia].
    + apply IH; [apply Hother; reflexivity | exact Hleft].
Qed.

Lemma submit_starts st :
  submitting st = false -> isValid v st = true ->
  Forall (fun t => isAccepted t = false) (timers st) ->
  submittingFor 800 (step v Submit st).
Proof.
  intros Hsub Hvalid Hshown.
  destruct (submit_state v st Hsub Hvalid) as (Hsub' & _ & Hclock & data & Htimers).
  split; [exact Hsub'|]. exists (timers st), (isLogin st), data.
  rewrite Htimers, Hclock. split; [reflexivity | exact Hshown].
Qed.

End QueueFacts.

Section QueueInvariant.
Import AuthCard AuthRuns.

Variable v : Variant.

Lemma filter_holds {A} (Q : A -> Prop) `{forall x, Decision (Q x)} (l : list A) :
  Forall Q (filter Q l).
Proof.
  induction l as [|x l IH]; [constructor|].
  destruct (decide (Q x)) as [Hq|Hq].
  - rewrite filter_cons_True by exact Hq. constructor; assumption.
  - rewrite filter_cons_False by exact Hq. exact IH.
Qed.

Lemma fold_future (due : list (nat * callback)) : forall st,
  Forall (fun t => clock st < t.1)%nat (timers st) ->
  clock (fold_left (fun s (t : nat * callback) => call v t.2 s) due st) = clock st /\
  Forall (fun t => clock st < t.1)%nat
    (timers (fold_left (fun s (t : nat * callback) => call v t.2 s) due st)).
Proof.
  induction due as [|[d cb] due IH]; intros st Hst; cbn [fold_left snd]; [done|].
  assert (clock (call v cb st) = clock st /\
          Forall (fun t => clock st < t.1)%nat (timers (call v cb st))) as [Hclock Htimers].
  { destruct cb as [wasLogin data|]; [|done].
    destruct (accepted_state v wasLogin data st) as (_ & _ & -> & ->).
    split; [reflexivity|]. apply Forall_app. split; [exact Hst|]. repeat constructor. cbn. lia. }
  destruct (IH (call v cb st)) as [Hclock' Htimers']; [rewrite Hclock; exact Htimers|].
  rewrite Hclock in Hclock', Htimers'. split; assumption.
Qed.

Lemma tick_future st : Forall (fun t => clock (tick v st) < t.1)%nat (timers (tick v st)).
Proof.
  unfold tick.
  destruct (fold_future (filter (fun t => t.1 <= S (clock st))%nat (timers st))
              (setClock (S (clock st)) (filter (fun t => S (clock st) < t.1)%nat (timers st)) st))
    as [-> Htimers]; [|exact Htimers].
  cbn [clock timers setClock]. apply filter_holds.
Qed.

Lemma enabled_valid st : disabled v st = false -> submitting st = false /\ isValid v st = true.
Proof.
  unfold disabled. destruct (isValid v st), (submitting st); cbn; intros; split; congruence.
Qed.

Lemma step_future ev st :
  Forall (fun t => clock st < t.1)%nat (timers st) ->
  Forall (fun t => clock (step v ev st) < t.1)%nat (timers (step v ev st)).
Proof.
  intros Hst. destruct ev as [name value| | |]; cbn [step].
  - case_bool_decide; exact Hst.
  - destruct (disabled v st) eqn:Hdisabled; [exact Hst|].
    destruct (enabled_valid st Hdisabled) as [Hsub Hvalid].
    destruct (submit_state v st Hsub Hvalid) as (_ & _ & Hclock & data & Htimers).
    cbn [step] in Hclock, Htimers. rewrite Hdisabled in Hclock, Htimers.
    rewrite Hclock, Htimers. apply Forall_app. split; [exact Hst|].
    repeat constructor. cbn. lia.
  - exact Hst.
  - apply tick_future.
Qed.

Lemma step_queue_ok ev st : queue_ok st -> queue_ok (step v ev st).
Proof.
  intros [Hfuture Hshape]. split; [apply step_future; exact Hfuture|].
  destruct (submitting st) eqn:Hsub.
  - destruct Hshape as (left & Hleft & Hfor).
    destruct (step_submitting v left ev st Hfor) as (Hother & Hwait & Hlast).
    destruct (isWait ev) eqn:Hev.
    + destruct (decide (left = 1%nat)) as [->|Hmore].
      * destruct (Hlast eq_refl eq_refl) as (Hstatus & _ & Hshown).
        rewrite (not_submitting _ Hstatus). exact Hshown.
      * pose proof (Hwait eq_refl ltac:(lia)) as Hnext.
        rewrite (proj1 Hnext). exists (left - 1)%nat. split; [lia | exact Hnext].
    + pose proof (Hother eq_refl) as Hnext.
      rewrite (proj1 Hnext). exists left. split; [exact Hleft | exact Hnext].
  - destruct ev as [name value| | |]; cbn [step].
    + case_bool_decide; cbn [submitting timers setForm]; rewrite Hsub; exact Hshape.
    + destruct (disabled v st) eqn:Hdisabled; [rewrite Hsub; exact Hshape|].
      destruct (enabled_valid st Hdisabled) as [_ Hvalid].
      pose proof (submit_starts v st Hsub Hvalid Hshape) as Hnext.
      cbn [step] in Hnext. rewrite Hdisabled in Hnext.
      rewrite (proj1 Hnext). exists 800%nat. split; [lia | exact Hnext].
    + cbn. rewrite Hsub. exact Hshape.
    + unfold tick.
      destruct (fold_shown v (filter (fun t => t.1 <= S (clock st))%nat (timers st))
                  (setClock (S (clock st))
                     (filter (fun t => S (clock st) < t.1)%nat (timers st)) st))
        as (_ & -> & _ & _ & -> & _); [apply Forall_filter_keep; exact Hshape|].
      cbn [submitting timers setClock]. rewrite Hsub.
      apply Forall_filter_keep. exact Hshape.
Qed.

Lemma reachable_queue_ok st : reachable v st -> queue_ok st.
Proof.
  induction 1 as [|ev st _ IH]; [|apply step_queue_ok; exact IH].
  split; [constructor | cbn; constructor].
Qed.

End QueueInvariant.

(** X14. In every state either version of the card can reach, no timer
    is overdue; while a submission is under way exactly one acceptance is
    pending, last in the queue and due within 800 units; and while none is
    under way no acceptance is pending at all. *)
Theorem one_acceptance_pending (v : AuthCard.Variant) (st : AuthCard.State) :
  AuthCard.reachable v st -> AuthRuns.queue_ok st.
Proof. exact (reachable_queue_ok v st). Qed.

Lemma one_acceptance_pending_witness :
  AuthRuns.queue_ok
    (AuthCard.run AuthCard.SingleCard [
       AuthCard.Toggle;
       AuthCard.Input "name" "Ama Mensah"; AuthCard.Input "email" "a@b.com";
       AuthCard.Input "password" "abcdefgh"; AuthCard.Submit; AuthCard.Wait]).
Proof. apply (one_acceptance_pending AuthCard.SingleCard). apply reachable_run. Defined.

(** X15. A submission lasts exactly 800 units whatever the user does
    meanwhile. From any reachable state with a valid form that is not
    being submitted, after [Submit] and any events that take less than 800
    units (typing, switching mode, pressing submit again) the status is
    still submitting and the button disabled; the unit that completes the
    800 brings success and the reset form. *)
Theorem submission_lasts_800 (v : AuthCard.Variant) (st : AuthCard.State)
    (evs : list AuthCard.Event) :
  AuthCard.reachable v st ->
  AuthCard.submitting st = false -> AuthCard.isValid v st = true ->
  ((AuthRuns.waits evs < 800)%nat ->
   AuthCard.status (AuthRuns.play v evs (AuthCard.step v AuthCard.Submit st))
     = AuthCard.Submitting /\
   AuthCard.disabled v (AuthRuns.play v evs (AuthCard.step v AuthCard.Submit st)) = true) /\
  (AuthRuns.waits evs = 799%nat ->
   AuthCard.status
     (AuthCard.step v AuthCard.Wait
        (AuthRuns.play v evs (AuthCard.step v AuthCard.Submit st))) = AuthCard.Success /\
   AuthCard.form
     (AuthCard.step v AuthCard.Wait
        (AuthRuns.play v evs (AuthCard.step v AuthCard.Submit st)))
     = HookForm.useForm (AuthCard.blank v)).
Proof.
  intros Hreach Hsub Hvalid.
  pose proof (reachable_queue_ok v st Hreach) as [_ Hshape]. rewrite Hsub in Hshape.
  pose proof (submit_starts v st Hsub Hvalid Hshape) as Hstart.
  split.
  - intros Hwaits.
    destruct (play_submitting v evs 800 _ Hstart Hwaits) as [Hflag _].
    unfold AuthCard.status, AuthCard.disabled. rewrite Hflag.
    split; [reflexivity | apply orb_true_r].
  - intros Hwaits.
    pose proof (play_submitting v evs 800 _ Hstart ltac:(lia)) as Hlast.
    rewrite Hwaits in Hlast.
    destruct (step_submitting v (800 - 799) AuthCard.Wait _ Hlast) as (_ & _ & Hend).
    destruct (Hend eq_refl eq_refl) as (Hstatus & Hform & _). split; assumption.
Qed.

Lemma submission_lasts_800_witness :
  let st := AuthCard.run AuthCard.SingleCard [
    AuthCard.Toggle;
    AuthCard.Input "name" "Ama Mensah"; AuthCard.Input "email" "a@b.com";
    AuthCard.Input "password" "abcdefgh"] in
  AuthCard.status
    (AuthRuns.play AuthCard.SingleCard
       [AuthCard.Wait; AuthCard.Toggle; AuthCard.Submit; AuthCard.Input "email" "x"]
       (AuthCard.step AuthCard.SingleCard AuthCard.Submit st)) = AuthCard.Submitting.
Proof.
  intros st.
  destruct (submission_lasts_800 AuthCard.SingleCard st
              [AuthCard.Wait; AuthCard.Toggle; AuthCard.Submit; AuthCard.Input "email" "x"])
    as [Hduring _].
  - apply reachable_run.
  - reflexivity.
  - vm_compute. reflexivity.
  - destruct Hduring as [Hstatus _]; [cbn; lia | exact Hstatus].
Defined.

(** ** What the card reports *)

Section ReportFacts.
Import AuthCard AuthRuns.

Variable v : Variant.

Lemma zodResolver_values s (vals : gmap string string) :
  Zod.safeParse s (Zod.Str <$> vals) = [] ->
  Resolvers.values (Resolvers.zodResolver s vals) = Zod.output (Zod.shape s) (Zod.Str <$> vals).
Proof. intros Hclean. unfold Resolvers.zodResolver. rewrite Hclean. reflexivity. Qed.

Lemma valid_validated st :
  isValid v st = true ->
  validated v (isLogin st)
    (Resolvers.values (resolver v st (HookForm.values (form st)))).
Proof.
  intros Hvalid. unfold isValid, HookForm.isValid in Hvalid.
  apply bool_decide_eq_true_1 in Hvalid. apply zodResolver_clean in Hvalid.
  exists (HookForm.values (form st)). split; [exact Hvalid|].
  apply zodResolver_values. exact Hvalid.
Qed.

Lemma call_reports_ok cb st :
  match cb with
  | accepted wasLogin data => validated v wasLogin data /\ (v = SingleCard -> wasLogin = false)
  | successShown => True
  end ->
  reports_ok v st -> reports_ok v (call v cb st).
Proof.
  intros Hcb [Htimers Hconsole]. destruct cb as [wasLogin data|]; [|exact (conj Htimers Hconsole)].
  destruct Hcb as [Hdata Hmode]. cbn [call]. unfold reports_ok.
  destruct (logOnAccept v) as [text|] eqn:Htext; cbn [option_map log]; split;
    cbn [timers console setTimeout setClock setForm setSuccess setSubmitting].
  - apply Forall_app. split; [exact Htimers | repeat constructor].
  - apply Forall_app. split; [exact Hconsole|]. repeat constructor.
    exists wasLogin. cbn [fst snd]. split; [exact Hdata|]. split; [exact Hmode|].
    right. exists text. split; reflexivity.
  - apply Forall_app. split; [exact Htimers | repeat constructor].
  - exact Hconsole.
Qed.

Lemma fold_reports_ok (due : list (nat * callback)) : forall st,
  Forall (fun t => match t.2 with
                   | accepted wasLogin data =>
                       validated v wasLogin data /\ (v = SingleCard -> wasLogin = false)
                   | successShown => True
                   end) due ->
  reports_ok v st ->
  reports_ok v (fold_left (fun s (t : nat * callback) => call v t.2 s) due st).
Proof.
  induction due as [|t due IH]; intros st Hdue Hst; cbn [fold_left]; [exact Hst|].
  inversion Hdue as [|? ? Ht Hrest]; subst.
  apply IH; [exact Hrest|]. apply call_reports_ok; assumption.
Qed.

Hypothesis sign_in_blocked :
  v = SingleCard -> forall st, reachable v st -> isLogin st = true -> isValid v st = false.

Lemma step_reports_ok ev st :
  reachable v st -> reports_ok v st -> reports_ok v (step v ev st).
Proof using sign_in_blocked.
  intros Hreach [Htimers Hconsole].
  destruct ev as [name value| | |]; cbn [step].
  - case_bool_decide; exact (conj Htimers Hconsole).
  - destruct (disabled v st) eqn:Hdisabled; [exact (conj Htimers Hconsole)|].
    destruct (enabled_valid v st Hdisabled) as [Hsub Hvalid].
    pose proof (valid_validated st Hvalid) as Hdata.
    assert (v = SingleCard -> isLogin st = false) as Hmode.
    { intros Hv. destruct (isLogin st) eqn:Hlogin; [|reflexivity].
      rewrite (sign_in_blocked Hv st Hreach Hlogin) in Hvalid. discriminate. }
    unfold HookForm.handleSubmit. cbn [fst snd].
    unfold isValid, HookForm.isValid in Hvalid. rewrite Hvalid.
    unfold onSubmit, reports_ok.
    destruct (logOnSubmit v) as [text|] eqn:Htext; cbn [log]; split;
      cbn [timers console setTimeout setClock setForm setSuccess setSubmitting isLogin].
    + apply Forall_app. split; [exact Htimers|]. repeat constructor; assumption.
    + apply Forall_app. split; [exact Hconsole|]. repeat constructor.
      exists (isLogin st). cbn [fst snd]. split; [exact Hdata|]. split; [exact Hmode|].
      left. reflexivity.
    + apply Forall_app. split; [exact Htimers|]. repeat constructor; assumption.
    + exact Hconsole.
  - exact (conj Htimers Hconsole).
  - unfold tick. apply fold_reports_ok.
    + apply Forall_filter_keep. exact Htimers.
    + split; cbn [timers console setClock]; [apply Forall_filter_keep; exact Htimers | exact Hconsole].
Qed.

Lemma reachable_reports_ok st : reachable v st -> reports_ok v st.
Proof using sign_in_blocked.
  induction 1 as [|ev st Hreach IH]; [|apply step_reports_ok; assumption].
  split; constructor.
Qed.

End ReportFacts.

Section Reports.
Import Zod AuthCard AuthRuns.

Lemma split_is_not_single : SplitCard = SingleCard -> False.
Proof. intros H. apply (f_equal toggleReset) in H. discriminate. Qed.

Lemma split_validated wasLogin data :
  validated SplitCard wasLogin data ->
  exists e p, prop data "email" = Str e /\ emailRegex e = true /\
              prop data "password" = Str p /\ (8 <= String.length p)%nat.
Proof.
  intros (vals & Hclean & ->). cbn [resolverSchema SplitCard getSchema] in Hclean |- *.
  destruct wasLogin.
  - apply login_verdict in Hclean as (e & p & He & Hmail & Hp & Hlen).
    exists e, p.
    rewrite !prop_output
      by (cbn; repeat first [apply list_elem_of_here | apply list_elem_of_further]).
    rewrite !prop_form, He, Hp. tauto.
  - apply signup_verdict in Hclean
      as (e & ph & f & l & p & He & Hmail & _ & _ & _ & _ & _ & _ & Hp & Hlen & _).
    exists e, p.
    rewrite !prop_output
      by (cbn; repeat first [apply list_elem_of_here | apply list_elem_of_further]).
    rewrite !prop_form, He, Hp. tauto.
Qed.


End Reports.

(** X16. The first version of the card only ever logs validated data:
    every console line of every reachable state reads "Form submitted:"
    and carries a well-formed e-mail address and a password of at least 8
    characters. *)
Theorem split_card_logs_validated (st : AuthCard.State) :
  AuthCard.reachable AuthCard.SplitCard st ->
  Forall (fun line =>
            line.1 = "Form submitted:" /\
            exists e p, Zod.prop line.2 "email" = Zod.Str e /\ Zod.emailRegex e = true /\
                        Zod.prop line.2 "password" = Zod.Str p /\ (8 <= String.length p)%nat)
         (AuthCard.console st).
Proof.
  intros Hreach.
  destruct (reachable_reports_ok AuthCard.SplitCard
              (fun Hv => False_rect _ (split_is_not_single Hv)) st Hreach) as [_ Hconsole].
  eapply Forall_impl; [exact Hconsole|].
  intros [text data] (wasLogin & Hdata & _ & Htext). cbn [fst snd] in *. split.
  - destruct Htext as [[= <-] | (f & [=] & _)]. reflexivity.
  - apply (split_validated wasLogin). exact Hdata.
Qed.

Lemma split_card_logs_validated_witness :
  Forall (fun line => line.1 = "Form submitted:" /\
            exists e p, Zod.prop line.2 "email" = Zod.Str e /\ Zod.emailRegex e = true /\
                        Zod.prop line.2 "password" = Zod.Str p /\ (8 <= String.length p)%nat)
    (AuthCard.console
       (AuthCard.run AuthCard.SplitCard [
          AuthCard.Input "email" "a@b.com"; AuthCard.Input "password" "abcdefgh";
          AuthCard.Submit])).
Proof. apply split_card_logs_validated. apply reachable_run. Defined.



(** ** When a form is accepted *)

Section Verdicts.
Import Zod Resolvers AuthCard.

Lemma isValid_clean v st :
  isValid v st = true <->
  safeParse (resolverSchema v (isLogin st)) (Str <$> HookForm.values (form st)) = [].
Proof.
  unfold isValid, HookForm.isValid, resolver. rewrite <- zodResolver_clean.
  split; [apply bool_decide_eq_true_1 | apply bool_decide_eq_true_2].
Qed.

End Verdicts.

(** X18. The first version of the card accepts a form exactly when the
    e-mail address is well formed and the password has at least 8
    characters and, in sign-up mode, the phone number has at least 10
    characters, both names are non-empty and the confirmation equals the
    password. In sign-in mode the sign-up fields play no part. *)
Theorem split_card_accepts_iff (st : AuthCard.State) :
  AuthCard.isValid AuthCard.SplitCard st = true <->
  exists e p,
    HookForm.values (AuthCard.form st) !! "email" = Some e /\ Zod.emailRegex e = true /\
    HookForm.values (AuthCard.form st) !! "password" = Some p /\ (8 <= String.length p)%nat /\
    (AuthCard.isLogin st = false ->
     exists ph f l,
       HookForm.values (AuthCard.form st) !! "phoneNumber" = Some ph /\
       (10 <= String.length ph)%nat /\
       HookForm.values (AuthCard.form st) !! "firstName" = Some f /\
       (1 <= String.length f)%nat /\
       HookForm.values (AuthCard.form st) !! "lastName" = Some l /\
       (1 <= String.length l)%nat /\
       HookForm.values (AuthCard.form st) !! "confirmPassword" = Some p).
Proof.
  rewrite isValid_clean. cbn [AuthCard.resolverSchema AuthCard.SplitCard AuthCard.getSchema].
  destruct (AuthCard.isLogin st).
  - rewrite login_verdict. split.
    + intros (e & p & He & Hmail & Hp & Hlen). exists e, p.
      repeat (split; [assumption|]). discriminate.
    + intros (e & p & He & Hmail & Hp & Hlen & _). exists e, p. tauto.
  - rewrite signup_verdict. split.
    + intros (e & ph & f & l & p & H). exists e, p.
      repeat (split; [tauto|]). intros _. exists ph, f, l. tauto.
    + intros (e & p & He & Hmail & Hp & Hlen & Hrest).
      destruct (Hrest eq_refl) as (ph & f & l & H). exists e, ph, f, l, p. tauto.
Qed.

(** X19. The second version of the card accepts a form exactly when
    the name, if the form holds one, is non-empty, the e-mail address is
    well formed, the password has at least 6 characters and the
    confirmation is absent, empty or equal to the password. The mode
    plays no part, and a sign-up with the confirmation left empty is
    accepted. *)
Theorem single_card_accepts_iff (st : AuthCard.State) :
  AuthCard.isValid AuthCard.SingleCard st = true <->
  (forall n, HookForm.values (AuthCard.form st) !! "name" = Some n ->
             (1 <= String.length n)%nat) /\
  exists e p,
    HookForm.values (AuthCard.form st) !! "email" = Some e /\ Zod.emailRegex e = true /\
    HookForm.values (AuthCard.form st) !! "password" = Some p /\ (6 <= String.length p)%nat /\
    (HookForm.values (AuthCard.form st) !! "confirmPassword" = None \/
     HookForm.values (AuthCard.form st) !! "confirmPassword" = Some "" \/
     HookForm.values (AuthCard.form st) !! "confirmPassword" = Some p).
Proof.
  rewrite isValid_clean. cbn [AuthCard.resolverSchema AuthCard.SingleCard].
  apply auth_verdict.
Qed.

(** X20. An empty form cannot be submitted: in both versions and both
    modes, a state whose field values are the empty defaults is invalid,
    its submit button is disabled and [Submit] changes nothing. This is
    the state after mounting, after a mode switch and after an accepted
    submission. *)
Theorem blank_form_blocked (v : AuthCard.Variant) (st : AuthCard.State) :
  v = AuthCard.SplitCard \/ v = AuthCard.SingleCard ->
  HookForm.values (AuthCard.form st) = AuthCard.blank v ->
  AuthCard.isValid v st = false /\
  AuthCard.disabled v st = true /\
  AuthCard.step v AuthCard.Submit st = st.
Proof.
  intros Hv Hblank.
  assert (AuthCard.isValid v st = false) as Hinvalid.
  { destruct (AuthCard.isValid v st) eqn:Hvalid; [|reflexivity]. exfalso.
    apply isValid_clean in Hvalid. rewrite Hblank in Hvalid.
    destruct Hv as [-> | ->];
      cbn [AuthCard.resolverSchema AuthCard.SplitCard AuthCard.SingleCard AuthCard.getSchema]
        in Hvalid.
    - destruct (AuthCard.isLogin st).
      + apply login_verdict in Hvalid as (e & p & He & Hmail & _).
        vm_compute in He. injection He as <-. discriminate.
      + apply signup_verdict in Hvalid as (e & ph & f & l & p & He & Hmail & _).
        vm_compute in He. injection He as <-. discriminate.
    - apply auth_verdict in Hvalid as (_ & e & p & He & Hmail & _).
      vm_compute in He. injection He as <-. discriminate. }
  split; [exact Hinvalid|].
  assert (AuthCard.disabled v st = true) as Hdisabled
    by (unfold AuthCard.disabled; rewrite Hinvalid; reflexivity).
  split; [exact Hdisabled|]. cbn [AuthCard.step]. rewrite Hdisabled. reflexivity.
Qed.

Lemma blank_form_blocked_witness :
  AuthCard.disabled AuthCard.SplitCard
    (AuthCard.toggleAuthMode AuthCard.SplitCard (AuthCard.mount AuthCard.SplitCard)) = true.
Proof.
  refine (proj1 (proj2 (blank_form_blocked AuthCard.SplitCard _ _ _))).
  - left. reflexivity.
  - reflexivity.
Defined.

(** X21. In the second version of the card a sign-in can never be
    submitted: in every reachable state in sign-in mode the hidden name
    field still holds its empty default, the form is invalid and [Submit]
    changes nothing. *)
Theorem single_card_sign_in_blocked (st : AuthCard.State) :
  AuthCard.reachable AuthCard.SingleCard st -> AuthCard.isLogin st = true ->
  HookForm.values (AuthCard.form st) !! "name" = Some "" /\
  AuthCard.isValid AuthCard.SingleCard st = false /\
  AuthCard.step AuthCard.SingleCard AuthCard.Submit st = st.
Proof.
  intros Hreach Hlogin. split; [apply sign_in_name_blank; assumption|].
  apply single_card_sign_in_never_valid; assumption.
Qed.

Lemma single_card_sign_in_blocked_witness :
  let st := AuthCard.run AuthCard.SingleCard
              [AuthCard.Input "email" "a@b.com"; AuthCard.Input "password" "abcdefgh"] in
  AuthCard.step AuthCard.SingleCard AuthCard.Submit st = st.
Proof.
  intros st.
  refine (proj2 (proj2 (single_card_sign_in_blocked st _ _))).
  - apply reachable_run.
  - reflexivity.
Defined.

(** ** Objects that lack a field *)

Section MissingField.
Import Zod.



End MissingField.



(** ** How long success is shown *)

Section SuccessExpiry.
Import AuthCard AuthRuns.

Variable v : Variant.

Lemma fold_success_expires (due : list (nat * callback)) : forall st,
  (success st = true ->
   (exists t, t ∈ due /\ t.2 = successShown) \/
   (exists d, (d, successShown) ∈ timers st /\ (clock st < d <= clock st + 2000)%nat)) ->
  success_expires (fold_left (fun s (t : nat * callback) => call v t.2 s) due st).
Proof.
  induction due as [|[d cb] due IH]; intros st Hst; cbn [fold_left snd].
  - intros Hsuccess. destruct (Hst Hsuccess) as [(t & Ht & _) | Hpending]; [|exact Hpending].
    apply elem_of_nil in Ht. contradiction.
  - apply IH. destruct cb as [wasLogin data|].
    + intros _. right. exists (clock st + 2000)%nat.
      destruct (accepted_state v wasLogin data st) as (_ & _ & -> & ->).
      split; [|lia]. apply elem_of_app. right. apply list_elem_of_here.
    + cbn [call setSuccess success]. discriminate.
Qed.

Lemma step_success_expires ev st : success_expires st -> success_expires (step v ev st).
Proof.
  intros Hst. destruct ev as [name value| | |]; cbn [step].
  - case_bool_decide; exact Hst.
  - destruct (disabled v st) eqn:Hdisabled; [exact Hst|].
    destruct (enabled_valid v st Hdisabled) as [Hsub Hvalid].
    unfold HookForm.handleSubmit. cbn [fst snd].
    unfold isValid, HookForm.isValid in Hvalid. rewrite Hvalid.
    unfold onSubmit, success_expires.
    destruct (logOnSubmit v); cbn [log success setTimeout setClock setSuccess]; discriminate.
  - exact Hst.
  - unfold tick. apply fold_success_expires. cbn [success clock timers setClock].
    intros Hsuccess. destruct (Hst Hsuccess) as (d & Hd & Hrange).
    destruct (decide (d <= S (clock st))%nat) as [Hdue | Hlater].
    + left. exists (d, successShown). split; [|reflexivity].
      apply list_elem_of_filter. split; [exact Hdue | exact Hd].
    + right. exists d. split; [|lia].
      apply list_elem_of_filter. split; [cbn; lia | exact Hd].
Qed.

Lemma reachable_success_expires st : reachable v st -> success_expires st.
Proof.
  induction 1 as [|ev st _ IH]; [discriminate | apply step_success_expires; exact IH].
Qed.

End SuccessExpiry.

(** X23. In every state either version of the card can reach, while
    the success flag is set a callback that clears it is pending and due
    within 2000 units: the success message cannot stay for good. *)
Theorem success_is_cleared (v : AuthCard.Variant) (st : AuthCard.State) :
  AuthCard.reachable v st -> AuthRuns.success_expires st.
Proof. exact (reachable_success_expires v st). Qed.

Lemma success_is_cleared_witness :
  AuthRuns.success_expires
    (AuthCard.run AuthCard.SplitCard
       ([AuthCard.Input "email" "a@b.com"; AuthCard.Input "password" "abcdefgh";
         AuthCard.Submit] ++ replicate 800 AuthCard.Wait)).
Proof. apply (success_is_cleared AuthCard.SplitCard). apply reachable_run. Defined.

